(** * Traceroute: a shallow embedding of [main.go] and its properties

    The Go program sweeps the IPv4 hop limit from 1 to [MaxTTL], sending
    ICMP Echo probes and classifying the replies.  Pure code is embedded as
    functions; calls into the operating system and into the Go libraries
    ([net], [icmp], [ipv4], [os], [fmt]) are embedded as explicit state
    passing over a [World] that records every call, with the answers of the
    outside world supplied by section variables.  A Go run-time panic is an
    explicit outcome.

    Go's [int] and [time.Duration] are 64-bit; they are embedded as [Z]
    without wrap-around, since the program only counts up to [attempts] and
    [MaxTTL], subtracts a buffer length from the size it was built for, and
    adds and subtracts clock readings. *)

From Stdlib Require Import ZArith List String Ascii Bool Lia.
From Stdlib.Strings Require Import Byte.
Import ListNotations.
Open Scope Z_scope.

(** ** Constants of [main.go] *)

Definition AttemptsCount : Z := 3.
Definition MaxTTL : Z := 64.
Definition MaxWaitSec : Z := 4.
Definition MsgLength : Z := 56.
Definition ProtocolIPv4ICMP : Z := 1.

(** [time.Second], in nanoseconds, the unit of [time.Duration]. *)
Definition Second : Z := 1000000000.

(** The [ipv4.ICMPType] values the program names (IANA numbers). *)
Definition ICMPTypeEchoReply : Z := 0.
Definition ICMPTypeDestinationUnreachable : Z := 3.
Definition ICMPTypeEcho : Z := 8.
Definition ICMPTypeTimeExceeded : Z := 11.

(** ** Go run-time panics *)

Inductive panic : Type :=
| IndexOutOfRange (i len : Z)
| SliceBoundsOutOfRange (hi len : Z).

Inductive Go (A : Type) : Type :=
| Ok (a : A)
| Panic (p : panic).
Arguments Ok {A} a.
Arguments Panic {A} p.

Definition bindGo {A B : Type} (m : Go A) (k : A -> Go B) : Go B :=
  match m with
  | Ok a => k a
  | Panic p => Panic p
  end.

Notation "x <- m ;; k" := (bindGo m (fun x => k))
  (at level 61, m at next level, right associativity).

Definition len {A : Type} (l : list A) : Z := Z.of_nat (List.length l).
Definition strlen (s : string) : Z := Z.of_nat (String.length s).

(** [a[i]]: panics when [i] is out of range. *)
Definition index {A : Type} (a : list A) (i : Z) : Go A :=
  if (0 <=? i) && (i <? len a)
  then match nth_error a (Z.to_nat i) with
       | Some x => Ok x
       | None => Panic (IndexOutOfRange i (len a))
       end
  else Panic (IndexOutOfRange i (len a)).

(** [a[:hi]] on a slice whose capacity is its length. *)
Definition sliceTo {A : Type} (a : list A) (hi : Z) : Go (list A) :=
  if (0 <=? hi) && (hi <=? len a)
  then Ok (firstn (Z.to_nat hi) a)
  else Panic (SliceBoundsOutOfRange hi (len a)).

(** [s[:hi]] on a string (Go strings are byte sequences). *)
Definition strTo (s : string) (hi : Z) : Go string :=
  if (0 <=? hi) && (hi <=? strlen s)
  then Ok (substring 0 (Z.to_nat hi) s)
  else Panic (SliceBoundsOutOfRange hi (strlen s)).

(** ** Packet Builder: [buildEchoRequest] *)

Record Echo : Type := { ID : Z; Seq : Z; Data : list byte }.
Record Message : Type := { Type_ : Z; Code : Z; Body : option Echo }.

(** An [error] value: one handed back by a library call (the outside world
    gives its text), or one of the two the program builds with
    [fmt.Errorf]. *)
Inductive error : Type :=
| LibError (what : string)
| GotWant (n want : Z)
| InvalidICMPType (msg : option Message) (peer : option string).

Definition dataChunk : list byte := list_byte_of_string "DATA".

(** [for count := size / len(dataChunk); count > 0; count-- { buf.Write(dataChunk) }] *)
Fixpoint writeChunks (count : nat) (buf : list byte) : list byte :=
  match count with
  | O => buf
  | S count' => writeChunks count' (buf ++ dataChunk)
  end.

(** The bytes of [buf] when the message is built (lines 25-35).  Go's [/]
    on [int] truncates towards zero: [Z.quot]. *)
Definition echoData (size : Z) : Go (list byte) :=
  let buf := writeChunks (Z.to_nat (Z.quot size (len dataChunk))) [] in
  let diff := size - len buf in
  if 0 <? diff
  then tail <- sliceTo dataChunk diff ;; Ok (buf ++ tail)
  else Ok buf.

Section PacketBuilder.

(** [os.Getpid()] and [icmp.Message.Marshal(nil)]. *)
Variable Getpid : Z.
Variable Marshal : Message -> list byte * option string.

Definition buildEchoRequest (t : Z) (size : Z) : Go (list byte * option error) :=
  data <- echoData size ;;
  let msg := {| Type_ := t;
                Code := 0;
                Body := Some {| ID := Z.land Getpid 65535;
                                Seq := 1;
                                Data := data |} |} in
  let (bytes, err) := Marshal msg in
Ok (bytes, option_map LibError err).

End PacketBuilder.

(** ** The outside world *)

(** A [net.Addr] or [*net.IPAddr], by its [String()]. *)
Definition Addr : Type := string.

(** The calls made on the raw socket, in the order they happen.  [WriteTo]
    and [ReadFrom] carry the clock reading at which they are entered. *)
Inductive SockOp : Type :=
| ListenPacket
| SetReadDeadline (deadline : Z)
| SetTTL (ttl : Z)
| WriteTo (at_ : Z) (dst : Addr) (n : Z)
| ReadFrom (at_ : Z)
| Close.

(** The lines the program prints; the values only, not their layout. *)
Inductive Line : Type :=
| LineTracing (addr : string) (maxttl : Z)
| LineInvalidAddress (addr : string)
| LineReached (ttl : Z) (durations : list Z) (peers : string)
| LineTTLExc (ttl : Z) (durations : list Z) (peers : string)
| LineError (ttl : Z)
| LineEnded.

Record World : Type := {
  now : Z;                (* [time.Now()], in nanoseconds *)
  calls : list SockOp;    (* socket calls so far, oldest first *)
  stdout : list Line      (* lines printed so far, oldest first *)
}.

Definition call (op : SockOp) (w : World) : World :=
  {| now := now w; calls := calls w ++ [op]; stdout := stdout w |}.

Definition elapse (d : Z) (w : World) : World :=
  {| now := now w + d; calls := calls w; stdout := stdout w |}.

Definition print (l : Line) (w : World) : World :=
  {| now := now w; calls := calls w; stdout := stdout w ++ [l] |}.

(** What the network answers to one attempt: the result of [WriteTo] (an
    error or the byte count) and the time it takes, the result of
    [ReadFrom] (an error, or a datagram and its sender) and the time it
    takes. *)
Record AttemptEnv : Type := {
  write_res : string + Z;
  write_time : Z;
  read_res : string + (list byte * Addr);
  read_time : Z
}.

(** What the outside world answers during one call of [socketExchange]. *)
Record HopEnv : Type := {
  listen_res : option string;
  deadline_res : option string;
  attempt : Z -> AttemptEnv
}.

(** ** Probe Transport: [socketExchange] *)

(** The four results of [socketExchange]: durations, responders, the
    [*ipv4.ICMPType] ([None] is [nil]) and the error ([None] is [nil]). *)
Definition Result : Type := (list Z * list Addr * option Z * option error)%type.

(** The variables declared before the loop and assigned in it. *)
Record LoopVars : Type := {
  durationsArray : list Z;
  peersArray : list Addr;
  peer : option Addr;
  msg : option Message;
  t : Z
}.

(** [return []time.Duration{0}, []net.Addr{}, nil, err] *)
Definition failed (err : error) : Result := ([0], [], None, Some err).

Section Program.

(** Library and system calls whose code is not part of the program. *)
Variable Getpid : Z.
Variable Marshal : Message -> list byte * option string.
Variable ParseMessage : Z -> list byte -> string + Message.
Variable LookupAddr : string -> list string * option string.
Variable ResolveIPAddr : string -> string -> Addr * option string.
(** The network, by the hop limit of the probes. *)
Variable net : Z -> HopEnv.

(** One iteration of the loop of lines 79-109: an early [return] ([inl])
    or the variables after the iteration ([inr]). *)
Definition attemptBody (env : HopEnv) (destination : Addr) (b : list byte)
    (i : Z) (v : LoopVars) (w : World) : (Result + LoopVars) * World :=
  let a := attempt env i in
  let start := now w in
  let w := elapse (write_time a) (call (WriteTo (now w) destination (len b)) w) in
  match write_res a with
  | inl err => (inl (failed (LibError err)), w)
  | inr n =>
    if negb (n =? len b) then (inl (failed (GotWant n (len b))), w)
    else
      let w := elapse (read_time a) (call (ReadFrom (now w)) w) in
      match read_res a with
      | inl err => (inl (failed (LibError err)), w)
      | inr (datagram, from) =>
        (* reply[:replyLength], the buffer holding 1500 bytes *)
        let reply := firstn 1500 datagram in
        let duration := now w - start in
        let durations := durationsArray v ++ [duration] in
        let peers := peersArray v ++ [from] in
        match ParseMessage ProtocolIPv4ICMP reply with
        | inl err => (inl (failed (LibError err)), w)
        | inr m =>
          (inr {| durationsArray := durations;
                  peersArray := peers;
                  peer := Some from;
                  msg := Some m;
                  t := if Type_ m =? ICMPTypeEchoReply
                       then ICMPTypeEchoReply else t v |}, w)
        end
      end
  end.

(** [for i := 0; i<attempts; i++]: [n] iterations are left, the next one
    has index [i]. *)
Fixpoint attemptsLoop (n : nat) (env : HopEnv) (destination : Addr)
    (b : list byte) (i : Z) (v : LoopVars) (w : World)
    : (Result + LoopVars) * World :=
  match n with
  | O => (inr v, w)
  | S n' =>
    match attemptBody env destination b i v w with
    | (inl r, w') => (inl r, w')
    | (inr v', w') => attemptsLoop n' env destination b (i + 1) v' w'
    end
  end.

(** The [switch t] of lines 111-121. *)
Definition classify (v : LoopVars) : Result :=
  if t v =? ICMPTypeEchoReply
  then (durationsArray v, peersArray v, Some (t v), None)
  else if t v =? ICMPTypeTimeExceeded
  then (durationsArray v, peersArray v, Some (t v), None)
  else failed (InvalidICMPType (msg v) (peer v)).

Definition socketExchange (destination : Addr) (b : list byte)
    (ttl attempts : Z) (w : World) : Result * World :=
  let env := net ttl in
  let w := call ListenPacket w in
  match listen_res env with
  | Some err => (([], [], None, Some (LibError err)), w)
  | None =>
    let '(r, w) :=
      let w := call (SetReadDeadline (now w + MaxWaitSec * Second)) w in
      match deadline_res env with
      | Some err => (failed (LibError err), w)
      | None =>
        let w := call (SetTTL ttl) w in
        let v := {| durationsArray := []; peersArray := [];
                    peer := None; msg := None;
                    t := ICMPTypeTimeExceeded |} in
        match attemptsLoop (Z.to_nat attempts) env destination b 0 v w with
        | (inl r, w) => (r, w)
        | (inr v, w) => (classify v, w)
        end
      end in
    (* defer connection.Close() *)
    (r, call Close w)
  end.

(** ** Address Presenter: [createPeersString] *)

(** The loop of lines 126-130, over the adjacent pairs of the slice. *)
Fixpoint identicalLoop (peers : list Addr) (peersAreIdentical : bool) : bool :=
  match peers with
  | p :: (q :: _) as rest =>
    identicalLoop rest (if negb (String.eqb p q) then false else peersAreIdentical)
  | _ => peersAreIdentical
  end.

(** The loop of lines 142-144: each name without its last byte, followed
    by two spaces. *)
Fixpoint namesLoop (ptr : list string) (ptrStr : string) : Go string :=
  match ptr with
  | [] => Ok ptrStr
  | name :: ptr' =>
    stripped <- strTo name (strlen name - 1) ;;
    namesLoop ptr' (ptrStr ++ stripped ++ "  ")%string
  end.

(** Lines 138-147: the names of [peersArray[0]] in parentheses. *)
Definition ptrString (peers : list Addr) : Go string :=
  first <- index peers 0 ;;
  let ptr := fst (LookupAddr first) in
  if 0 <? len ptr
  then s <- namesLoop ptr " ("%string ;;
       s <- strTo s (strlen s - 2) ;;
       Ok (s ++ ")")%string
  else Ok EmptyString.

(** The loop of lines 137-149; [rest] are the elements from index [i] on. *)
Fixpoint peersLoop (peers rest : list Addr) (buffStr : string) : Go string :=
  match rest with
  | [] => Ok buffStr
  | p :: rest' =>
    ptrStr <- ptrString peers ;;
    peersLoop peers rest' (buffStr ++ p ++ ptrStr ++ "  ")%string
  end.

Definition createPeersString (peersArray : list Addr) : Go string :=
  let peersAreIdentical := identicalLoop peersArray true in
  peersArray <- (if peersAreIdentical
                 then first <- index peersArray 0 ;; Ok [first]
                 else Ok peersArray) ;;
  buffStr <- peersLoop peersArray peersArray "["%string ;;
  buffStr <- strTo buffStr (strlen buffStr - 2) ;;
  Ok (buffStr ++ "]")%string.

(** ** Hop Prober: [ping] *)

Definition ping (dest : Addr) (ttl : Z) (w : World) : Go bool * World :=
  match buildEchoRequest Getpid Marshal ICMPTypeEcho MsgLength with
  | Panic p => (Panic p, w)
  | Ok (msg, _) =>
    let '((durationsArray, peersArray, t, err), w) :=
      socketExchange dest msg ttl AttemptsCount w in
    match err with
    | None =>
      match t with
      | Some t =>
        if t =? ICMPTypeEchoReply then
          match createPeersString peersArray with
          | Panic p => (Panic p, w)
          | Ok s => (Ok true, print (LineReached ttl durationsArray s) w)
          end
        else if t =? ICMPTypeTimeExceeded then
          match createPeersString peersArray with
          | Panic p => (Panic p, w)
          | Ok s => (Ok false, print (LineTTLExc ttl durationsArray s) w)
          end
        else (Ok false, w)
      | None => (Ok false, w)
      end
    | Some _ => (Ok false, print (LineError ttl) w)
    end
  end.

(** ** Trace Controller: [tracert] *)

(** How the [for] loop of lines 189-193 is left. *)
Inductive LoopExit : Type :=
| Break        (* [ping] returned true *)
| CondFalse.   (* [i <= MaxTTL] became false *)

(** [for i := 1; i <= MaxTTL; i++]: [n] iterations are left, the next one
    has hop limit [i]. *)
Fixpoint sweepLoop (n : nat) (destination : Addr) (i : Z) (w : World)
    : Go LoopExit * World :=
  match n with
  | O => (Ok CondFalse, w)
  | S n' =>
    match ping destination i w with
    | (Panic p, w') => (Panic p, w')
    | (Ok true, w') => (Ok Break, w')
    | (Ok false, w') => sweepLoop n' destination (i + 1) w'
    end
  end.

(** [tracert]; the result tells how the sweep ended, [None] when the
    address did not resolve. *)
Definition tracert (addr : string) (w : World) : Go (option LoopExit) * World :=
  let w := print (LineTracing addr MaxTTL) w in
  match ResolveIPAddr "ip4"%string addr with
  | (_, Some _) => (Ok None, print (LineInvalidAddress addr) w)
  | (destination, None) =>
    match sweepLoop (Z.to_nat MaxTTL) destination 1 w with
    | (Panic p, w') => (Panic p, w')
    | (Ok e, w') => (Ok (Some e), print LineEnded w')
    end
  end.

End Program.

(** ** Vocabulary for the properties *)

(** The infinite repetition of the pattern, read at position [i]. *)
Definition patternAt (i : nat) : byte :=
  nth (i mod 4) dataChunk x00.

(** The hop limits [i], [i+1], ..., [i+n-1]. *)
Fixpoint upto (n : nat) (i : Z) : list Z :=
  match n with
  | O => []
  | S n' => i :: upto n' (i + 1)
  end.

Definition isSend (op : SockOp) : bool :=
  match op with WriteTo _ _ _ => true | _ => false end.

Definition isReceive (op : SockOp) : bool :=
  match op with ReadFrom _ => true | _ => false end.

Definition isListen (op : SockOp) : bool :=
  match op with ListenPacket => true | _ => false end.

Definition isDeadline (op : SockOp) : bool :=
  match op with SetReadDeadline _ => true | _ => false end.

(** A call made inside the attempts loop. *)
Definition isAttemptOp (op : SockOp) : bool := isSend op || isReceive op.

Definition countOps (p : SockOp -> bool) (ops : list SockOp) : Z :=
  len (filter p ops).

(** The hop limits set on a socket, in order. *)
Fixpoint hopLimitsSet (ops : list SockOp) : list Z :=
  match ops with
  | [] => []
  | SetTTL h :: ops' => h :: hopLimitsSet ops'
  | _ :: ops' => hopLimitsSet ops'
  end.

(** Every send has a deadline set after the send before it ([armed] tells
    whether one was set since the last send). *)
Fixpoint eachSendAfterReset (armed : bool) (ops : list SockOp) : bool :=
  match ops with
  | [] => true
  | SetReadDeadline _ :: ops' => eachSendAfterReset true ops'
  | WriteTo _ _ _ :: ops' => armed && eachSendAfterReset false ops'
  | _ :: ops' => eachSendAfterReset armed ops'
  end.

(** Every send is entered with a deadline in force ([cur]) that lies
    [MaxWaitSec] seconds after the time of the send. *)
Fixpoint eachSendHasFreshDeadline (cur : option Z) (ops : list SockOp) : bool :=
  match ops with
  | [] => true
  | SetReadDeadline d :: ops' => eachSendHasFreshDeadline (Some d) ops'
  | WriteTo at_ _ _ :: ops' =>
    match cur with
    | Some d => (d =? at_ + MaxWaitSec * Second) && eachSendHasFreshDeadline cur ops'
    | None => false
    end
  | _ :: ops' => eachSendHasFreshDeadline cur ops'
  end.

(** The outcome is not a panic on an index. *)
Definition indexSafe {A : Type} (r : Go A) : Prop :=
  match r with
  | Panic (IndexOutOfRange _ _) => False
  | _ => True
  end.

(** The resolver hands back no empty name ([net.LookupAddr] returns
    domain names in presentation format, ending in a dot). *)
Definition namesNonEmpty (LookupAddr : string -> list string * option string)
    : Prop :=
  forall addr name, In name (fst (LookupAddr addr)) -> name <> EmptyString.

(** The four components of a [Result]. *)
Definition durationsOf (r : Result) : list Z := fst (fst (fst r)).
Definition peersOf (r : Result) : list Addr := snd (fst (fst r)).
Definition classification (r : Result) : option Z := snd (fst r).
Definition errorOf (r : Result) : option error := snd r.

Definition world0 : World := {| now := 0; calls := []; stdout := [] |}.

Section Attempts.

Variable ParseMessage : Z -> list byte -> string + Message.

(** The message an attempt's reply parses to, when it is received and
    parses. *)
Definition replyMessage (a : AttemptEnv) : option Message :=
  match read_res a with
  | inl _ => None
  | inr (datagram, _) =>
    match ParseMessage ProtocolIPv4ICMP (firstn 1500 datagram) with
    | inl _ => None
    | inr m => Some m
    end
  end.

Definition replyType (a : AttemptEnv) : option Z :=
  option_map Type_ (replyMessage a).

Definition replyIs (ty : Z) (a : AttemptEnv) : bool :=
  match replyType a with
  | Some ty' => ty' =? ty
  | None => false
  end.

Definition replyPeer (a : AttemptEnv) : Addr :=
  match read_res a with
  | inl _ => EmptyString
  | inr (_, from) => from
  end.

(** The time between the start of an attempt and the end of its read. *)
Definition roundTrip (a : AttemptEnv) : Z := write_time a + read_time a.

(** The attempt-level error of an attempt sending [b]: send failure,
    partial write, read failure (the deadline passing is one), or parse
    failure; [None] when the attempt has none. *)
Definition attemptError (b : list byte) (a : AttemptEnv) : option error :=
  match write_res a with
  | inl e => Some (LibError e)
  | inr n =>
    if n =? len b
    then match read_res a with
         | inl e => Some (LibError e)
         | inr (datagram, _) =>
           match ParseMessage ProtocolIPv4ICMP (firstn 1500 datagram) with
           | inl e => Some (LibError e)
           | inr _ => None
           end
         end
    else Some (GotWant n (len b))
  end.

(** The variables after an attempt without error. *)
Definition afterAttempt (a : AttemptEnv) (v : LoopVars) : LoopVars :=
  {| durationsArray := durationsArray v ++ [roundTrip a];
     peersArray := peersArray v ++ [replyPeer a];
     peer := Some (replyPeer a);
     msg := replyMessage a;
     t := if replyIs ICMPTypeEchoReply a then ICMPTypeEchoReply else t v |}.

End Attempts.

(** Every attempt on every hop is sent in full and gets no reply before
    the deadline: its read fails. *)
Definition everyAttemptTimesOut (net : Z -> HopEnv) (probe : list byte) : Prop :=
  forall h i,
    listen_res (net h) = None /\
    deadline_res (net h) = None /\
    write_res (attempt (net h) i) = inr (len probe) /\
    exists e, read_res (attempt (net h) i) = inl e.

(** ** The Trace Controller as a state machine *)

Inductive SweepState : Type :=
| Sweeping (hopLimit : Z)
| Reached
| Exhausted.

Definition stateOfExit (e : LoopExit) : SweepState :=
  match e with
  | Break => Reached
  | CondFalse => Exhausted
  end.

(** The result of the loop, read as a state of the machine. *)
Definition machineOfLoop (r : Go LoopExit * World) : Go SweepState * World :=
  match r with
  | (Ok e, w) => (Ok (stateOfExit e), w)
  | (Panic p, w) => (Panic p, w)
  end.

Definition isTerminal (s : SweepState) : bool :=
  match s with
  | Sweeping _ => false
  | Reached | Exhausted => true
  end.

Section Machine.

Variable Getpid : Z.
Variable Marshal : Message -> list byte * option string.
Variable ParseMessage : Z -> list byte -> string + Message.
Variable LookupAddr : string -> list string * option string.
Variable net : Z -> HopEnv.
Variable destination : Addr.

(** The bytes [ping] sends: the Echo request of [MsgLength] payload bytes,
    marshalled. *)
Definition probeBytes : list byte :=
  match buildEchoRequest Getpid Marshal ICMPTypeEcho MsgLength with
  | Ok (msg, _) => msg
  | Panic _ => []
  end.

(** What [ping] returns for a hop limit, and the error of its exchange,
    in the initial world. *)
Definition hopVerdict (h : Z) : Go bool :=
  fst (ping Getpid Marshal ParseMessage LookupAddr net destination h world0).

Definition hopError (h : Z) : option error :=
  errorOf (fst (socketExchange ParseMessage net destination probeBytes h
                  AttemptsCount world0)).

(** One step: in [Sweeping h] probe hop limit [h]; an EchoReply verdict
    leads to [Reached]; otherwise [h] is incremented, and exceeding
    [MaxTTL] leads to [Exhausted].  The terminal states do not move. *)
Definition machineStep (s : SweepState) (w : World) : Go SweepState * World :=
  match s with
  | Sweeping h =>
    match ping Getpid Marshal ParseMessage LookupAddr net destination h w with
    | (Panic p, w') => (Panic p, w')
    | (Ok true, w') => (Ok Reached, w')
    | (Ok false, w') =>
      if h + 1 >? MaxTTL then (Ok Exhausted, w') else (Ok (Sweeping (h + 1)), w')
    end
  | Reached => (Ok Reached, w)
  | Exhausted => (Ok Exhausted, w)
  end.

Fixpoint machineRun (steps : nat) (s : SweepState) (w : World)
    : Go SweepState * World :=
  match steps with
  | O => (Ok s, w)
  | S steps' =>
    match machineStep s w with
    | (Panic p, w') => (Panic p, w')
    | (Ok s', w') => machineRun steps' s' w'
    end
  end.

End Machine.

(** ** Sample surroundings *)

(** A parser that reads the header only: four bytes are needed, the first
    is the type, the second the code. *)
Definition parseHeader (proto : Z) (b : list byte) : string + Message :=
  match b with
  | ty :: code :: _ :: _ :: _ =>
    inr {| Type_ := Z.of_N (Byte.to_N ty); Code := Z.of_N (Byte.to_N code);
           Body := None |}
  | _ => inl "message too short"%string
  end.

(** A marshaller that writes the header and the payload, without checksum
    or identifiers. *)
Definition marshalPlain (m : Message) : list byte * option string :=
  (x08 :: x00 :: x00 :: x00 ::
   match Body m with Some e => Data e | None => [] end, None).

Definition resolveLiteral (network addr : string) : Addr * option string :=
  (addr, None).

Definition noNames (addr : string) : list string * option string :=
  ([], Some "no such host"%string).

Definition twoHosts (addr : string) : list string * option string :=
  if String.eqb addr "10.0.0.1" then (["a.example."%string], None)
  else if String.eqb addr "10.0.0.2" then (["b.example."%string], None)
  else ([], Some "no such host"%string).

(** The probe of [ping] under [marshalPlain]: 60 bytes. *)
Definition sampleProbe : list byte :=
  x08 :: x00 :: x00 :: x00 ::
  List.concat (List.repeat dataChunk 14).

Definition replyOf (ty : byte) (from : Addr) (rtt : Z) : AttemptEnv :=
  {| write_res := inr 60; write_time := 0;
     read_res := inr ([ty; x00; x00; x00; x00; x00; x00; x00], from);
     read_time := rtt |}.

Definition timeoutAfter (wait : Z) : AttemptEnv :=
  {| write_res := inr 60; write_time := 0;
     read_res := inl "i/o timeout"%string;
     read_time := wait |}.

Definition timeout : AttemptEnv := timeoutAfter (MaxWaitSec * Second).

Definition hopOf (f : Z -> AttemptEnv) : HopEnv :=
  {| listen_res := None; deadline_res := None; attempt := f |}.

(** Every hop answers TimeExceeded from its router; hop 3 is the
    destination and answers EchoReply. *)
Definition netThreeHops (ttl : Z) : HopEnv :=
  if ttl =? 1 then hopOf (fun _ => replyOf x0b "10.0.0.1"%string 1000000)
  else if ttl =? 2 then hopOf (fun _ => replyOf x0b "10.0.0.2"%string 2000000)
  else hopOf (fun _ => replyOf x00 "10.0.0.3"%string 3000000).

(** No reply ever arrives. *)
Definition netSilent (ttl : Z) : HopEnv := hopOf (fun _ => timeout).

(** The first attempt is answered by the destination, the second times
    out. *)
Definition netEchoThenTimeout (ttl : Z) : HopEnv :=
  hopOf (fun i => if i =? 0 then replyOf x00 "10.0.0.3"%string 1000000
                else timeoutAfter 3999000000).

(** Every attempt is answered with DestinationUnreachable by a router. *)
Definition netUnreachable (ttl : Z) : HopEnv :=
  hopOf (fun _ => replyOf x03 "10.0.0.9"%string 1000000).

(** Every attempt is answered after one second. *)
Definition netSlow (ttl : Z) : HopEnv :=
  hopOf (fun _ => replyOf x0b "10.0.0.1"%string Second).

(** ** Further vocabulary *)

(** The strings of [l] with [sep] between them. *)
Fixpoint joinSep (sep : string) (l : list string) : string :=
  match l with
  | [] => EmptyString
  | [s] => s
  | s :: l' => (s ++ sep ++ joinSep sep l')%string
  end.

(** A string without its last byte. *)
Definition dropLast (s : string) : string :=
  substring 0 (String.length s - 1) s.

(** All addresses are textually the first one. *)
Definition allSame (peers : list Addr) : bool :=
  forallb (String.eqb (hd EmptyString peers)) peers.

(** The addresses that are displayed. *)
Definition shown (peers : list Addr) : list Addr :=
  if allSame peers then [hd EmptyString peers] else peers.

(** The hop limit a line is about. *)
Definition lineHop (l : Line) : option Z :=
  match l with
  | LineReached ttl _ _ | LineTTLExc ttl _ _ | LineError ttl => Some ttl
  | LineTracing _ _ | LineInvalidAddress _ | LineEnded => None
  end.

Definition isReachedLine (l : Line) : bool :=
  match l with
  | LineReached _ _ _ => true
  | _ => false
  end.

(** A call without its clock reading. *)
Definition untimed (op : SockOp) : SockOp :=
  match op with
  | SetReadDeadline _ => SetReadDeadline 0
  | WriteTo _ dst n => WriteTo 0 dst n
  | ReadFrom _ => ReadFrom 0
  | ListenPacket => ListenPacket
  | SetTTL ttl => SetTTL ttl
  | Close => Close
  end.

(** [n] times a send of [size] bytes to [dst] followed by a receive,
    without clock readings. *)
Fixpoint sendReceive (n : nat) (dst : Addr) (size : Z) : list SockOp :=
  match n with
  | O => []
  | S n' => WriteTo 0 dst size :: ReadFrom 0 :: sendReceive n' dst size
  end.

(** The socket of a hop limit can be opened and its deadline set. *)
Definition setupOk (net : Z -> HopEnv) (h : Z) : bool :=
  match listen_res (net h), deadline_res (net h) with
  | None, None => true
  | _, _ => false
  end.

(** A log of sockets that all open: a socket is opened only when none is
    open, every other call is made on the open socket, and [Close] closes
    it; [opened] tells whether one is open. *)
Fixpoint wellBracketed (opened : bool) (ops : list SockOp) : bool :=
  match ops with
  | [] => negb opened
  | ListenPacket :: ops' => negb opened && wellBracketed true ops'
  | Close :: ops' => opened && wellBracketed false ops'
  | _ :: ops' => opened && wellBracketed opened ops'
  end.

Definition isClose (op : SockOp) : bool :=
  match op with Close => true | _ => false end.

(** No raw socket can be opened (no privilege). *)
Definition netNoSocket (ttl : Z) : HopEnv :=
  {| listen_res := Some "operation not permitted"%string;
     deadline_res := None;
     attempt := fun _ => timeout |}.

(** The socket opens but takes no deadline. *)
Definition netNoDeadline (ttl : Z) : HopEnv :=
  {| listen_res := None;
     deadline_res := Some "file type does not support deadline"%string;
     attempt := fun _ => timeout |}.

(** No name resolves. *)
Definition resolveNothing (network addr : string) : Addr * option string :=
  (EmptyString, Some "no such host"%string).

(** The strings of [l], each followed by [sep]. *)
Fixpoint trailSep (sep : string) (l : list string) : string :=
  match l with
  | [] => EmptyString
  | s :: l' => (s ++ sep ++ trailSep sep l')%string
  end.

(** A resolver that hands back an empty name. *)
Definition emptyName (addr : string) : list string * option string :=
  (["host.example."; ""]%string, None).

(** A send, if the call is one, goes to [dest] and has [n] bytes. *)
Definition sendsTo (dest : Addr) (n : Z) (op : SockOp) : bool :=
  match op with
  | WriteTo _ d m => String.eqb d dest && (m =? n)
  | _ => true
  end.

(** The send of an attempt fails: [WriteTo] hands back an error, or a byte
    count that is not the length of [b]. *)
Definition sendFails (b : list byte) (a : AttemptEnv) : bool :=
  match write_res a with
  | inl _ => true
  | inr n => negb (n =? len b)
  end.

(** The third write is short. *)
Definition netShortWrite (ttl : Z) : HopEnv :=
  hopOf (fun i => if i =? 2
                  then {| write_res := inr 12; write_time := 0;
                          read_res := inl "i/o timeout"%string;
                          read_time := 0 |}
                  else replyOf x0b "10.0.0.1"%string 1000000).

(** * Properties

    ** Packet Builder *)

Lemma writeChunks_app (count : nat) (buf : list byte) :
  writeChunks count buf = buf ++ List.concat (List.repeat dataChunk count).
Proof.
  revert buf; induction count as [|c IH]; intros buf; simpl.
  - now rewrite app_nil_r.
  - rewrite IH, <- app_assoc. reflexivity.
Qed.

Lemma length_concat_repeat_chunk (count : nat) :
  List.length (List.concat (List.repeat dataChunk count)) = (4 * count)%nat.
Proof.
  induction count as [|c IH]; [reflexivity|].
  change (List.concat (List.repeat dataChunk (S c)))
    with (dataChunk ++ List.concat (List.repeat dataChunk c)).
  rewrite length_app, IH. change (List.length dataChunk) with 4%nat. lia.
Qed.

Lemma len_writeChunks (count : nat) :
  len (writeChunks count []) = 4 * Z.of_nat count.
Proof.
  unfold len. rewrite writeChunks_app. simpl app.
  rewrite length_concat_repeat_chunk. lia.
Qed.

Lemma nth_concat_repeat_chunk (count i : nat) :
  (i < 4 * count)%nat ->
  nth i (List.concat (List.repeat dataChunk count)) x00 = patternAt i.
Proof.
  revert i; induction count as [|c IH]; intros i Hi; [lia|].
  change (List.concat (List.repeat dataChunk (S c)))
    with (dataChunk ++ List.concat (List.repeat dataChunk c)).
  destruct (Nat.lt_ge_cases i 4) as [Hlt|Hge].
  - rewrite app_nth1 by (simpl; lia).
    unfold patternAt. rewrite Nat.mod_small by lia. reflexivity.
  - rewrite app_nth2 by (simpl; lia).
    change (List.length dataChunk) with 4%nat.
    rewrite IH by lia. unfold patternAt.
    replace i with ((i - 4) + 1 * 4)%nat at 2 by lia.
    rewrite Nat.Div0.mod_add. reflexivity.
Qed.

Lemma echoData_eq (size : Z) :
  0 <= size ->
  echoData size =
  Ok (List.concat (List.repeat dataChunk (Z.to_nat (size / 4)))
        ++ firstn (Z.to_nat (size mod 4)) dataChunk).
Proof.
  intros Hs. unfold echoData.
  change (len dataChunk) with 4.
  rewrite Z.quot_div_nonneg by lia.
  rewrite len_writeChunks, writeChunks_app. simpl app.
  rewrite Z2Nat.id by (apply Z.div_pos; lia).
  assert (Hm : size - 4 * (size / 4) = size mod 4)
    by (rewrite Z.mod_eq by lia; reflexivity).
  rewrite Hm.
  pose proof (Z.mod_pos_bound size 4 ltac:(lia)) as Hb.
  destruct (0 <? size mod 4) eqn:Hd.
  - unfold sliceTo. change (len dataChunk) with 4.
    replace ((0 <=? size mod 4) && (size mod 4 <=? 4)) with true
      by (symmetry; apply andb_true_iff; split; apply Z.leb_le; lia).
    reflexivity.
  - apply Z.ltb_ge in Hd. replace (size mod 4) with 0 by lia.
    simpl. now rewrite app_nil_r.
Qed.

(** C7. For every payload size S >= 0 the Packet Builder's Echo payload is
    produced (the slice never panics), has exactly S bytes, is the pattern
    "DATA" repeated S/4 times followed by its first S mod 4 bytes, so that
    byte i is byte (i mod 4) of "DATA"; and the payload put into the message
    depends on the size only, not on the message type or the process id. *)
Theorem C7_payload_is_truncated_repetition
    (Marshal : Message -> list byte * option string) (size : Z) :
  0 <= size ->
  exists data : list byte,
    echoData size = Ok data /\
    len data = size /\
    data = List.concat (List.repeat dataChunk (Z.to_nat (size / 4)))
             ++ firstn (Z.to_nat (size mod 4)) dataChunk /\
    (forall i : nat, (i < List.length data)%nat -> nth i data x00 = patternAt i) /\
    (forall pid t,
        let m := {| Type_ := t; Code := 0;
                    Body := Some {| ID := Z.land pid 65535; Seq := 1;
                                    Data := data |} |} in
        buildEchoRequest pid Marshal t size =
        Ok (fst (Marshal m), option_map LibError (snd (Marshal m)))).
Proof.
  intros Hs. eexists. split; [apply echoData_eq; exact Hs|].
  pose proof (Z.mod_pos_bound size 4 ltac:(lia)) as Hb.
  assert (Hq : 0 <= size / 4) by (apply Z.div_pos; lia).
  assert (Hlen : List.length
            (List.concat (List.repeat dataChunk (Z.to_nat (size / 4)))
               ++ firstn (Z.to_nat (size mod 4)) dataChunk)
          = Z.to_nat size).
  { rewrite length_app, length_concat_repeat_chunk, length_firstn.
    change (List.length dataChunk) with 4%nat.
    rewrite (Z.div_mod size 4) at 3 by lia. lia. }
  split; [unfold len; rewrite Hlen; lia|].
  split; [reflexivity|].
  split.
  - intros i Hi. rewrite Hlen in Hi.
    set (q := Z.to_nat (size / 4)) in *.
    assert (Hsz : Z.to_nat size = (4 * q + Z.to_nat (size mod 4))%nat).
    { unfold q. rewrite (Z.div_mod size 4) at 1 by lia. lia. }
    destruct (Nat.lt_ge_cases i (4 * q)) as [Hlt|Hge].
    + rewrite app_nth1 by (rewrite length_concat_repeat_chunk; exact Hlt).
      now apply nth_concat_repeat_chunk.
    + rewrite app_nth2 by (rewrite length_concat_repeat_chunk; exact Hge).
      rewrite length_concat_repeat_chunk.
      assert (Hr : (i - 4 * q < Z.to_nat (size mod 4))%nat) by lia.
      assert (Hr4 : (i - 4 * q < 4)%nat) by lia.
      unfold patternAt.
      replace (i mod 4)%nat with (i - 4 * q)%nat.
      2:{ replace i with ((i - 4 * q) + q * 4)%nat at 2 by lia.
          rewrite Nat.Div0.mod_add, Nat.mod_small by lia. reflexivity. }
      generalize dependent (i - 4 * q)%nat. intros k Hk Hk4.
      revert Hk. generalize (Z.to_nat (size mod 4)). intros m Hk.
      clear - Hk Hk4.
      revert k Hk Hk4. generalize dataChunk.
      induction m as [|m IH]; intros l k Hk Hk4; [lia|].
      destruct l as [|x l]; [destruct k; reflexivity|].
      destruct k as [|k]; simpl; [reflexivity|].
      destruct l as [|y l']; [destruct m; destruct k; reflexivity|].
      apply IH; lia.
  - intros pid t m. unfold buildEchoRequest.
    rewrite (echoData_eq size Hs). cbn [bindGo]. fold m.
    destruct (Marshal m); reflexivity.
Qed.

Lemma C7_witness :
  0 <= MsgLength /\
  exists data : list byte,
    echoData MsgLength = Ok data /\
    len data = MsgLength /\
    data = List.concat (List.repeat dataChunk (Z.to_nat (MsgLength / 4)))
             ++ firstn (Z.to_nat (MsgLength mod 4)) dataChunk /\
    (forall i : nat, (i < List.length data)%nat -> nth i data x00 = patternAt i) /\
    (forall pid t,
        let m := {| Type_ := t; Code := 0;
                    Body := Some {| ID := Z.land pid 65535; Seq := 1;
                                    Data := data |} |} in
        buildEchoRequest pid marshalPlain t MsgLength =
        Ok (fst (marshalPlain m), option_map LibError (snd (marshalPlain m)))).
Proof.
  split; [unfold MsgLength; lia|].
  apply (C7_payload_is_truncated_repetition marshalPlain MsgLength).
  unfold MsgLength; lia.
Defined.

(** ** Probe Transport *)

Lemma len_app {A : Type} (l1 l2 : list A) : len (l1 ++ l2) = len l1 + len l2.
Proof. unfold len. rewrite length_app. lia. Qed.

Lemma countOps_app (p : SockOp -> bool) (l1 l2 : list SockOp) :
  countOps p (l1 ++ l2) = countOps p l1 + countOps p l2.
Proof. unfold countOps. rewrite filter_app. apply len_app. Qed.

Lemma hopLimitsSet_app (l1 l2 : list SockOp) :
  hopLimitsSet (l1 ++ l2) = hopLimitsSet l1 ++ hopLimitsSet l2.
Proof.
  induction l1 as [|op l1 IH]; [reflexivity|].
  destruct op; simpl; rewrite IH; reflexivity.
Qed.

Lemma attemptOps_no_hopLimit (ops : list SockOp) :
  forallb isAttemptOp ops = true -> hopLimitsSet ops = [].
Proof.
  induction ops as [|op ops IH]; [reflexivity|].
  destruct op; simpl; intros H; try discriminate; apply IH; exact H.
Qed.

Lemma attemptOps_count_zero (p : SockOp -> bool) (ops : list SockOp) :
  (forall op, isAttemptOp op = true -> p op = false) ->
  forallb isAttemptOp ops = true -> countOps p ops = 0.
Proof.
  intros Hp. induction ops as [|op ops IH]; [reflexivity|].
  simpl. intros H. apply andb_true_iff in H as [H1 H2].
  unfold countOps in *. simpl. rewrite (Hp op H1). apply IH; exact H2.
Qed.

Lemma upto_length (n : nat) (i : Z) : List.length (upto n i) = n.
Proof. revert i; induction n as [|n IH]; intros i; simpl; [|rewrite IH]; reflexivity. Qed.

Lemma upto_In (n : nat) (i j : Z) :
  In j (upto n i) <-> i <= j < i + Z.of_nat n.
Proof.
  revert i; induction n as [|n IH]; intros i; cbn [upto In].
  - split; [tauto|lia].
  - rewrite IH. rewrite Nat2Z.inj_succ. lia.
Qed.

Lemma upto_snoc (n : nat) (i : Z) :
  upto (S n) i = upto n i ++ [i + Z.of_nat n].
Proof.
  revert i; induction n as [|n IH]; intros i.
  - simpl. now rewrite Z.add_0_r.
  - change (upto (S (S n)) i) with (i :: upto (S n) (i + 1)).
    rewrite IH. cbn [upto app].
    replace (i + Z.of_nat (S n)) with (i + 1 + Z.of_nat n) by lia.
    reflexivity.
Qed.

Section ExchangeFacts.

Variable ParseMessage : Z -> list byte -> string + Message.
Variable net : Z -> HopEnv.

Local Abbreviation attemptBody' := (attemptBody ParseMessage).
Local Abbreviation attemptsLoop' := (attemptsLoop ParseMessage).
Local Abbreviation socketExchange' := (socketExchange ParseMessage net).
Local Abbreviation attemptError' := (attemptError ParseMessage).
Local Abbreviation replyIs' := (replyIs ParseMessage).
Local Abbreviation afterAttempt' := (afterAttempt ParseMessage).

Lemma attemptBody_fst env destination b i v w :
  fst (attemptBody' env destination b i v w) =
  match attemptError' b (attempt env i) with
  | Some e => inl (failed e)
  | None => inr (afterAttempt' (attempt env i) v)
  end.
Proof.
  unfold attemptBody, attemptError, afterAttempt,
    replyIs, replyType, replyMessage, replyPeer, roundTrip.
  destruct (write_res (attempt env i)) as [e|n]; [reflexivity|].
  destruct (n =? len b); [|reflexivity]. cbn [negb].
  destruct (read_res (attempt env i)) as [e|[datagram from]]; [reflexivity|].
  destruct (ParseMessage ProtocolIPv4ICMP (firstn 1500 datagram)) as [e|m];
    [reflexivity|].
  cbn.
  replace (now w + write_time (attempt env i) + read_time (attempt env i) - now w)
    with (write_time (attempt env i) + read_time (attempt env i)) by lia.
  reflexivity.
Qed.

Lemma attemptError_not_invalid b a e m p :
  attemptError' b a = Some e -> e <> InvalidICMPType m p.
Proof.
  unfold attemptError.
  destruct (write_res a) as [e1|n]; [intros [= <-]; discriminate|].
  destruct (n =? len b); [|intros [= <-]; discriminate].
  destruct (read_res a) as [e1|[datagram from]]; [intros [= <-]; discriminate|].
  destruct (ParseMessage ProtocolIPv4ICMP (firstn 1500 datagram));
    [intros [= <-]; discriminate|discriminate].
Qed.

(** The calls of one attempt: one send, then at most one receive. *)
Lemma attemptBody_world env destination b i v w :
  exists ops,
    calls (snd (attemptBody' env destination b i v w)) = calls w ++ ops /\
    forallb isAttemptOp ops = true /\
    countOps isSend ops = 1 /\
    stdout (snd (attemptBody' env destination b i v w)) = stdout w.
Proof.
  unfold attemptBody.
  destruct (write_res (attempt env i)) as [e|n].
  { eexists; cbn; repeat split; reflexivity. }
  destruct (n =? len b); cbn [negb].
  2:{ eexists; cbn; repeat split; reflexivity. }
  destruct (read_res (attempt env i)) as [e|[datagram from]].
  { exists [WriteTo (now w) destination (len b);
            ReadFrom (now w + write_time (attempt env i))].
    cbn. rewrite <- app_assoc. repeat split; reflexivity. }
  exists [WriteTo (now w) destination (len b);
          ReadFrom (now w + write_time (attempt env i))].
  destruct (ParseMessage ProtocolIPv4ICMP (firstn 1500 datagram));
    cbn; rewrite <- app_assoc; repeat split; reflexivity.
Qed.

Section Loop.

Variable env : HopEnv.
Variable destination : Addr.
Variable b : list byte.

(** The variables after the attempts [js], none of which fails. *)
Lemma afterAttempts_durations js v :
  durationsArray (fold_left (fun v j => afterAttempt' (attempt env j) v) js v) =
  durationsArray v ++ map (fun j => roundTrip (attempt env j)) js.
Proof.
  revert v; induction js as [|j js IH]; intros v; cbn [fold_left map].
  - now rewrite app_nil_r.
  - rewrite IH. cbn [afterAttempt durationsArray]. now rewrite <- app_assoc.
Qed.

Lemma afterAttempts_peers js v :
  peersArray (fold_left (fun v j => afterAttempt' (attempt env j) v) js v) =
  peersArray v ++ map (fun j => replyPeer (attempt env j)) js.
Proof.
  revert v; induction js as [|j js IH]; intros v; cbn [fold_left map].
  - now rewrite app_nil_r.
  - rewrite IH. cbn [afterAttempt peersArray]. now rewrite <- app_assoc.
Qed.

Lemma afterAttempts_t js v :
  t (fold_left (fun v j => afterAttempt' (attempt env j) v) js v) =
  if existsb (fun j => replyIs' ICMPTypeEchoReply (attempt env j)) js
  then ICMPTypeEchoReply
  else t v.
Proof.
  revert v; induction js as [|j js IH]; intros v; cbn [fold_left existsb].
  - reflexivity.
  - rewrite IH. cbn [afterAttempt t].
    destruct (replyIs' ICMPTypeEchoReply (attempt env j)); cbn [orb].
    + destruct (existsb _ js); reflexivity.
    + reflexivity.
Qed.

(** Without attempt-level error the loop runs all its iterations. *)
Lemma attemptsLoop_clean n i v w :
  (forall j, i <= j < i + Z.of_nat n -> attemptError' b (attempt env j) = None) ->
  fst (attemptsLoop' n env destination b i v w) =
  inr (fold_left (fun v j => afterAttempt' (attempt env j) v) (upto n i) v).
Proof.
  revert i v w; induction n as [|n IH]; intros i v w Hclean; [reflexivity|].
  cbn [attemptsLoop upto fold_left].
  pose proof (attemptBody_fst env destination b i v w) as Hb.
  rewrite (Hclean i) in Hb by lia.
  destruct (attemptBody' env destination b i v w) as [[r|v'] w'];
    cbn [fst] in Hb; [discriminate|].
  injection Hb as ->. apply IH. intros j Hj. apply Hclean. lia.
Qed.

(** The first attempt-level error ends the loop: the attempts before it
    and the failing one have sent, no other. *)
Lemma attemptsLoop_abort n i k e v w :
  i <= k < i + Z.of_nat n ->
  (forall j, i <= j < k -> attemptError' b (attempt env j) = None) ->
  attemptError' b (attempt env k) = Some e ->
  fst (attemptsLoop' n env destination b i v w) = inl (failed e) /\
  exists ops,
    calls (snd (attemptsLoop' n env destination b i v w)) = calls w ++ ops /\
    forallb isAttemptOp ops = true /\
    countOps isSend ops = k - i + 1.
Proof.
  revert i v w; induction n as [|n IH]; intros i v w Hk Hclean Herr; [lia|].
  cbn [attemptsLoop].
  pose proof (attemptBody_fst env destination b i v w) as Hb.
  destruct (attemptBody_world env destination b i v w)
    as (ops1 & Hc1 & Ha1 & Hs1 & _).
  destruct (Z.eq_dec i k) as [->|Hne].
  - rewrite Herr in Hb.
    destruct (attemptBody' env destination b k v w) as [[r|v'] w'];
      cbn [fst snd] in *; [|discriminate].
    injection Hb as ->. split; [reflexivity|].
    exists ops1. repeat split; try assumption. lia.
  - rewrite (Hclean i) in Hb by lia.
    destruct (attemptBody' env destination b i v w) as [[r|v'] w'];
      cbn [fst snd] in *; [discriminate|].
    destruct (IH (i + 1) v' w') as (Hfst & ops2 & Hc2 & Ha2 & Hs2);
      [lia|intros j Hj; apply Hclean; lia|exact Herr|].
    split; [exact Hfst|].
    exists (ops1 ++ ops2). rewrite Hc2, Hc1, <- app_assoc.
    rewrite forallb_app, Ha1, Ha2, countOps_app, Hs1, Hs2.
    repeat split. lia.
Qed.

(** The loop only sends and receives, and sends at most once per
    iteration. *)
Lemma attemptsLoop_world n i v w :
  exists ops,
    calls (snd (attemptsLoop' n env destination b i v w)) = calls w ++ ops /\
    forallb isAttemptOp ops = true /\
    countOps isSend ops <= Z.of_nat n /\
    stdout (snd (attemptsLoop' n env destination b i v w)) = stdout w.
Proof.
  revert i v w; induction n as [|n IH]; intros i v w.
  - exists []. cbn. rewrite app_nil_r. repeat split. reflexivity.
  - cbn [attemptsLoop].
    destruct (attemptBody_world env destination b i v w)
      as (ops1 & Hc1 & Ha1 & Hs1 & Ho1).
    destruct (attemptBody' env destination b i v w) as [[r|v'] w'];
      cbn [fst snd] in *.
    + exists ops1. repeat split; try assumption. lia.
    + destruct (IH (i + 1) v' w') as (ops2 & Hc2 & Ha2 & Hs2 & Ho2).
      exists (ops1 ++ ops2). rewrite Hc2, Hc1, <- app_assoc, Ho2, Ho1.
      rewrite forallb_app, Ha1, Ha2, countOps_app, Hs1.
      repeat split. lia.
Qed.

(** What the loop hands back does not depend on the world it starts in. *)
Lemma attemptsLoop_fst_indep n i v w1 w2 :
  fst (attemptsLoop' n env destination b i v w1) =
  fst (attemptsLoop' n env destination b i v w2).
Proof.
  revert i v w1 w2; induction n as [|n IH]; intros i v w1 w2; [reflexivity|].
  cbn [attemptsLoop].
  pose proof (attemptBody_fst env destination b i v w1) as H1.
  pose proof (attemptBody_fst env destination b i v w2) as H2.
  rewrite <- H2 in H1. clear H2.
  destruct (attemptBody' env destination b i v w1) as [[r1|v1] w1'],
           (attemptBody' env destination b i v w2) as [[r2|v2] w2'];
    cbn [fst] in H1; try discriminate.
  - exact H1.
  - injection H1 as ->. apply IH.
Qed.

(** An early return carries an attempt-level error; a full run has one
    entry per iteration and a type that is EchoReply or the initial one. *)
Lemma attemptsLoop_inv n i v w :
  match fst (attemptsLoop' n env destination b i v w) with
  | inl r => exists e, r = failed e /\ forall m p, e <> InvalidICMPType m p
  | inr v' =>
    List.length (durationsArray v') = (List.length (durationsArray v) + n)%nat /\
    List.length (peersArray v') = (List.length (peersArray v) + n)%nat /\
    (t v' = ICMPTypeEchoReply \/ t v' = t v)
  end.
Proof.
  revert i v w; induction n as [|n IH]; intros i v w.
  - cbn. repeat split; lia.
  - cbn [attemptsLoop].
    pose proof (attemptBody_fst env destination b i v w) as Hb.
    destruct (attemptBody' env destination b i v w) as [[r|v'] w'];
      cbn [fst] in Hb |- *.
    + destruct (attemptError' b (attempt env i)) as [e|] eqn:He; [|discriminate].
      injection Hb as ->. exists e. split; [reflexivity|].
      intros m p. eapply attemptError_not_invalid; exact He.
    + destruct (attemptError' b (attempt env i)) as [e|] eqn:He; [discriminate|].
      injection Hb as ->. specialize (IH (i + 1) (afterAttempt' (attempt env i) v) w').
      destruct (fst (attemptsLoop' n env destination b (i + 1) _ w')) as [r|v''].
      * exact IH.
      * destruct IH as (Hd & Hp & Ht).
        cbn [afterAttempt durationsArray peersArray t] in Hd, Hp, Ht.
        rewrite length_app in Hd, Hp. cbn [List.length] in Hd, Hp.
        repeat split; try lia.
        destruct Ht as [Ht|Ht]; [now left|].
        rewrite Ht. destruct (replyIs' ICMPTypeEchoReply (attempt env i));
          [now left|now right].
Qed.

End Loop.

(** The calls of one exchange: the socket is opened, the deadline is set,
    the hop limit is set, the attempts send and receive, the socket is
    closed. *)
Lemma socketExchange_world destination b ttl attempts w :
  exists ops,
    forallb isAttemptOp ops = true /\
    countOps isSend ops <= Z.of_nat (Z.to_nat attempts) /\
    calls (snd (socketExchange' destination b ttl attempts w)) =
      calls w ++ ListenPacket ::
        match listen_res (net ttl) with
        | Some _ => []
        | None =>
          SetReadDeadline (now w + MaxWaitSec * Second) ::
          match deadline_res (net ttl) with
          | Some _ => [Close]
          | None => SetTTL ttl :: ops ++ [Close]
          end
        end /\
    stdout (snd (socketExchange' destination b ttl attempts w)) = stdout w.
Proof.
  unfold socketExchange.
  destruct (listen_res (net ttl)) as [e|].
  { exists []. cbn. repeat split. lia. }
  destruct (deadline_res (net ttl)) as [e|].
  { exists []. cbn. rewrite <- !app_assoc. repeat split. lia. }
  match goal with
  | |- context [attemptsLoop' ?n ?env ?d ?b' ?i ?v ?w'] =>
    destruct (attemptsLoop_world env d b' n i v w') as (ops & Hc & Ha & Hs & Ho);
    destruct (attemptsLoop' n env d b' i v w') as [[r|v'] w'']
  end; cbn [fst snd] in *; exists ops; cbn; rewrite Hc, Ho; cbn;
    rewrite <- !app_assoc; repeat split; assumption.
Qed.

Lemma socketExchange_fst_indep destination b ttl attempts w1 w2 :
  fst (socketExchange' destination b ttl attempts w1) =
  fst (socketExchange' destination b ttl attempts w2).
Proof.
  unfold socketExchange.
  destruct (listen_res (net ttl)) as [e|]; [reflexivity|].
  destruct (deadline_res (net ttl)) as [e|]; [reflexivity|].
  match goal with
  | |- context [attemptsLoop' ?n ?env ?d ?b' ?i ?v (call ?o1 (call ?o2 (call ?o3 w1)))] =>
    pose proof (attemptsLoop_fst_indep env d b' n i v
                  (call o1 (call o2 (call o3 w1)))
                  (call (SetTTL ttl)
                     (call (SetReadDeadline (now (call ListenPacket w2)
                                             + MaxWaitSec * Second))
                        (call ListenPacket w2)))) as H;
    destruct (attemptsLoop' n env d b' i v (call o1 (call o2 (call o3 w1))))
      as [[r1|v1] w1']
  end;
  match goal with
  | |- context [attemptsLoop' ?n ?env ?d ?b' ?i ?v ?w'] =>
    destruct (attemptsLoop' n env d b' i v w') as [[r2|v2] w2']
  end; cbn [fst] in H; try discriminate; injection H as ->; reflexivity.
Qed.

(** The result of an exchange whose attempts all complete. *)
Lemma socketExchange_clean destination b ttl attempts w :
  listen_res (net ttl) = None ->
  deadline_res (net ttl) = None ->
  (forall j, 0 <= j < attempts ->
             attemptError' b (attempt (net ttl) j) = None) ->
  fst (socketExchange' destination b ttl attempts w) =
  (map (fun j => roundTrip (attempt (net ttl) j)) (upto (Z.to_nat attempts) 0),
   map (fun j => replyPeer (attempt (net ttl) j)) (upto (Z.to_nat attempts) 0),
   Some (if existsb (fun j => replyIs' ICMPTypeEchoReply (attempt (net ttl) j))
                    (upto (Z.to_nat attempts) 0)
         then ICMPTypeEchoReply else ICMPTypeTimeExceeded),
   None).
Proof.
  intros Hl Hd Hclean. unfold socketExchange. rewrite Hl, Hd.
  match goal with
  | |- context [attemptsLoop' ?n ?env ?d ?b' ?i ?v ?w'] =>
    pose proof (attemptsLoop_clean env d b' n i v w') as H;
    specialize (H ltac:(intros j Hj; apply Hclean; lia));
    destruct (attemptsLoop' n env d b' i v w') as [[r|v'] w'']
  end; cbn [fst] in H; [discriminate|].
  injection H as ->. cbn [fst]. unfold classify.
  rewrite afterAttempts_durations, afterAttempts_peers, afterAttempts_t.
  cbn [durationsArray peersArray t app].
  destruct (existsb _ _); reflexivity.
Qed.

(** The result and the calls of an exchange whose attempt [k] is the first
    to fail. *)
Lemma socketExchange_abort destination b ttl attempts w k e :
  listen_res (net ttl) = None ->
  deadline_res (net ttl) = None ->
  0 <= k < attempts ->
  (forall j, 0 <= j < k -> attemptError' b (attempt (net ttl) j) = None) ->
  attemptError' b (attempt (net ttl) k) = Some e ->
  fst (socketExchange' destination b ttl attempts w) = failed e /\
  exists ops,
    calls (snd (socketExchange' destination b ttl attempts w)) =
      calls w ++ [ListenPacket; SetReadDeadline (now w + MaxWaitSec * Second);
                  SetTTL ttl] ++ ops ++ [Close] /\
    forallb isAttemptOp ops = true /\
    countOps isSend ops = k + 1.
Proof.
  intros Hl Hd Hk Hclean Herr. unfold socketExchange. rewrite Hl, Hd.
  match goal with
  | |- context [attemptsLoop' ?n ?env ?d ?b' ?i ?v ?w'] =>
    destruct (attemptsLoop_abort env d b' n i k e v w')
      as (Hfst & ops & Hc & Ha & Hs);
      [lia|exact Hclean|exact Herr|];
    destruct (attemptsLoop' n env d b' i v w') as [[r|v'] w'']
  end; cbn [fst snd] in *; [|discriminate].
  injection Hfst as ->. split; [reflexivity|].
  exists ops. cbn. rewrite Hc. cbn. rewrite <- !app_assoc.
  repeat split; try assumption. lia.
Qed.

(** Every result is a success with a classification and one entry per
    attempt, or a failure without classification whose error is not the
    one of the [default] branch. *)
Lemma socketExchange_inv destination b ttl attempts w :
  match fst (socketExchange' destination b ttl attempts w) with
  | (ds, ps, ty, None) =>
    (ty = Some ICMPTypeEchoReply \/ ty = Some ICMPTypeTimeExceeded) /\
    List.length ds = Z.to_nat attempts /\
    List.length ps = Z.to_nat attempts
  | (_, _, ty, Some e) =>
    ty = None /\ forall m p, e <> InvalidICMPType m p
  end.
Proof.
  unfold socketExchange.
  destruct (listen_res (net ttl)) as [e|].
  { cbn. split; [reflexivity|discriminate]. }
  destruct (deadline_res (net ttl)) as [e|].
  { cbn. split; [reflexivity|discriminate]. }
  match goal with
  | |- context [attemptsLoop' ?n ?env ?d ?b' ?i ?v ?w'] =>
    pose proof (attemptsLoop_inv env d b' n i v w') as H;
    destruct (attemptsLoop' n env d b' i v w') as [[r|v'] w'']
  end; cbn [fst] in *.
  - destruct H as (e & -> & He). cbn. split; [reflexivity|exact He].
  - destruct H as (Hd & Hp & Ht). cbn [durationsArray peersArray t List.length] in *.
    unfold classify.
    destruct Ht as [Ht|Ht]; rewrite Ht; cbn; repeat split; auto.
Qed.

End ExchangeFacts.

Lemma replyIs_true ParseMessage ty a :
  replyIs ParseMessage ty a = true <-> replyType ParseMessage a = Some ty.
Proof.
  unfold replyIs. destruct (replyType ParseMessage a) as [ty'|].
  - rewrite Z.eqb_eq. split; [intros ->; reflexivity|intros [= ->]; reflexivity].
  - split; discriminate.
Qed.

Lemma existsb_upto (f : Z -> bool) (attempts : Z) :
  existsb f (upto (Z.to_nat attempts) 0) = true <->
  exists j, 0 <= j < attempts /\ f j = true.
Proof.
  rewrite existsb_exists. split; intros (j & Hj & Hf); exists j; split;
    try exact Hf; apply upto_In in Hj || apply upto_In; lia.
Qed.

(** C1 (amended). In an exchange whose socket is set up: when none of the
    [attempts] attempts has an attempt-level error, the exchange succeeds
    with the durations and responders of all attempts, in order, and its
    classification is EchoReply if any attempt's reply was EchoReply, and
    TimeExceeded if none was EchoReply and some reply was TimeExceeded;
    when an attempt has an attempt-level error, the exchange fails with the
    first such error, whatever the replies before it were. *)
Theorem C1_precedence_when_all_attempts_complete
    ParseMessage net destination b ttl attempts w :
  listen_res (net ttl) = None ->
  deadline_res (net ttl) = None ->
  ((forall j, 0 <= j < attempts ->
              attemptError ParseMessage b (attempt (net ttl) j) = None) ->
   exists cls,
     fst (socketExchange ParseMessage net destination b ttl attempts w) =
       (map (fun j => roundTrip (attempt (net ttl) j)) (upto (Z.to_nat attempts) 0),
        map (fun j => replyPeer (attempt (net ttl) j)) (upto (Z.to_nat attempts) 0),
        Some cls, None) /\
     ((exists j, 0 <= j < attempts /\
                 replyType ParseMessage (attempt (net ttl) j)
                 = Some ICMPTypeEchoReply) ->
      cls = ICMPTypeEchoReply) /\
     ((forall j, 0 <= j < attempts ->
                 replyType ParseMessage (attempt (net ttl) j)
                 <> Some ICMPTypeEchoReply) ->
      (exists j, 0 <= j < attempts /\
                 replyType ParseMessage (attempt (net ttl) j)
                 = Some ICMPTypeTimeExceeded) ->
      cls = ICMPTypeTimeExceeded)) /\
  (forall k e,
      0 <= k < attempts ->
      (forall j, 0 <= j < k ->
                 attemptError ParseMessage b (attempt (net ttl) j) = None) ->
      attemptError ParseMessage b (attempt (net ttl) k) = Some e ->
      fst (socketExchange ParseMessage net destination b ttl attempts w)
      = ([0], [], None, Some e)).
Proof.
  intros Hl Hd. split.
  - intros Hclean.
    eexists. split; [apply socketExchange_clean; assumption|].
    destruct (existsb _ _) eqn:Hex.
    + split; [reflexivity|]. intros Hno _.
      apply existsb_upto in Hex as (j & Hj & Hr).
      apply replyIs_true in Hr. elim (Hno j Hj Hr).
    + split; [|reflexivity]. intros (j & Hj & Hr).
      assert (Ht : existsb
                (fun j => replyIs ParseMessage ICMPTypeEchoReply (attempt (net ttl) j))
                (upto (Z.to_nat attempts) 0) = true).
      { apply existsb_upto. exists j. split; [exact Hj|]. now apply replyIs_true. }
      rewrite Ht in Hex. discriminate.
  - intros k e Hk Hclean Herr.
    exact (proj1 (socketExchange_abort ParseMessage net destination b ttl
                    attempts w k e Hl Hd Hk Hclean Herr)).
Qed.

Lemma netThreeHops_clean (ttl j : Z) :
  attemptError parseHeader sampleProbe (attempt (netThreeHops ttl) j) = None.
Proof.
  unfold netThreeHops.
  destruct (ttl =? 1); [reflexivity|]. destruct (ttl =? 2); reflexivity.
Qed.

Lemma C1_witness :
  exists cls,
    fst (socketExchange parseHeader netThreeHops "10.0.0.3"%string sampleProbe
           3 AttemptsCount world0) =
      (map (fun j => roundTrip (attempt (netThreeHops 3) j))
           (upto (Z.to_nat AttemptsCount) 0),
       map (fun j => replyPeer (attempt (netThreeHops 3) j))
           (upto (Z.to_nat AttemptsCount) 0),
       Some cls, None) /\
    ((exists j, 0 <= j < AttemptsCount /\
                replyType parseHeader (attempt (netThreeHops 3) j)
                = Some ICMPTypeEchoReply) ->
     cls = ICMPTypeEchoReply) /\
    ((forall j, 0 <= j < AttemptsCount ->
                replyType parseHeader (attempt (netThreeHops 3) j)
                <> Some ICMPTypeEchoReply) ->
     (exists j, 0 <= j < AttemptsCount /\
                replyType parseHeader (attempt (netThreeHops 3) j)
                = Some ICMPTypeTimeExceeded) ->
     cls = ICMPTypeTimeExceeded).
Proof.
  refine (proj1 (C1_precedence_when_all_attempts_complete parseHeader
                   netThreeHops "10.0.0.3"%string sampleProbe 3 AttemptsCount
                   world0 _ _) _).
  - reflexivity.
  - reflexivity.
  - intros j _. apply netThreeHops_clean.
Defined.

(** C1 as stated fails: the first attempt's reply is EchoReply, the second
    attempt times out, and the exchange is not classified EchoReply. *)
Lemma C1_counterexample :
  ~ ((exists j, 0 <= j < AttemptsCount /\
                replyType parseHeader (attempt (netEchoThenTimeout 1) j)
                = Some ICMPTypeEchoReply) ->
     classification
       (fst (socketExchange parseHeader netEchoThenTimeout "10.0.0.3"%string
               sampleProbe 1 AttemptsCount world0))
     = Some ICMPTypeEchoReply).
Proof.
  intros H.
  assert (Hex : exists j, 0 <= j < AttemptsCount /\
                replyType parseHeader (attempt (netEchoThenTimeout 1) j)
                = Some ICMPTypeEchoReply).
  { exists 0. split; [unfold AttemptsCount; lia|reflexivity]. }
  specialize (H Hex). vm_compute in H. discriminate.
Qed.

(** C2. The [default] branch that fails the exchange is never taken: no
    exchange fails with the invalid-type error, and three replies of type
    DestinationUnreachable are classified TimeExceeded without error, so
    that [ping] reports the hop as a TimeExceeded hop, not as an error. *)
Theorem C2_unexpected_type_is_accepted :
  (forall ParseMessage net destination b ttl attempts w m p,
      errorOf (fst (socketExchange ParseMessage net destination b ttl attempts w))
      <> Some (InvalidICMPType m p)) /\
  (forall j, replyType parseHeader (attempt (netUnreachable 1) j)
             = Some ICMPTypeDestinationUnreachable) /\
  fst (socketExchange parseHeader netUnreachable "10.0.0.3"%string sampleProbe
         1 AttemptsCount world0)
  = ([1000000; 1000000; 1000000],
     ["10.0.0.9"; "10.0.0.9"; "10.0.0.9"]%string,
     Some ICMPTypeTimeExceeded, None) /\
  fst (ping 4242 marshalPlain parseHeader noNames netUnreachable
         "10.0.0.3"%string 1 world0) = Ok false /\
  stdout (snd (ping 4242 marshalPlain parseHeader noNames netUnreachable
                 "10.0.0.3"%string 1 world0))
  = [LineTTLExc 1 [1000000; 1000000; 1000000] "[10.0.0.9]"].
Proof.
  split; [|repeat split; intros; reflexivity].
  intros PM net d b ttl attempts w m p.
  pose proof (socketExchange_inv PM net d b ttl attempts w) as H.
  destruct (fst (socketExchange PM net d b ttl attempts w)) as [[[ds ps] ty] [e|]];
    cbn; [|discriminate].
  destruct H as [_ H]. intros [= ->]. exact (H m p eq_refl).
Qed.

(** C3. When the socket is set up and attempt [k] is the first with an
    attempt-level error (send failure, partial write, read failure such as
    the deadline passing, or parse failure), the exchange fails with that
    error, and exactly the attempts 0..k have sent: no later attempt is
    made. *)
Theorem C3_first_attempt_error_aborts_exchange
    ParseMessage net destination b ttl attempts w k e :
  listen_res (net ttl) = None ->
  deadline_res (net ttl) = None ->
  0 <= k < attempts ->
  (forall j, 0 <= j < k ->
             attemptError ParseMessage b (attempt (net ttl) j) = None) ->
  attemptError ParseMessage b (attempt (net ttl) k) = Some e ->
  fst (socketExchange ParseMessage net destination b ttl attempts w)
  = ([0], [], None, Some e) /\
  exists ops,
    calls (snd (socketExchange ParseMessage net destination b ttl attempts w)) =
      calls w ++ [ListenPacket; SetReadDeadline (now w + MaxWaitSec * Second);
                  SetTTL ttl] ++ ops ++ [Close] /\
    forallb isAttemptOp ops = true /\
    countOps isSend ops = k + 1.
Proof.
  intros Hl Hd Hk Hclean Herr.
  exact (socketExchange_abort ParseMessage net destination b ttl attempts w k e
           Hl Hd Hk Hclean Herr).
Qed.

Lemma C3_witness :
  fst (socketExchange parseHeader netEchoThenTimeout "10.0.0.3"%string
         sampleProbe 1 AttemptsCount world0)
  = ([0], [], None, Some (LibError "i/o timeout")) /\
  exists ops,
    calls (snd (socketExchange parseHeader netEchoThenTimeout "10.0.0.3"%string
                  sampleProbe 1 AttemptsCount world0)) =
      calls world0 ++ [ListenPacket;
                       SetReadDeadline (now world0 + MaxWaitSec * Second);
                       SetTTL 1] ++ ops ++ [Close] /\
    forallb isAttemptOp ops = true /\
    countOps isSend ops = 1 + 1.
Proof.
  apply (C3_first_attempt_error_aborts_exchange parseHeader netEchoThenTimeout
           "10.0.0.3"%string sampleProbe 1 AttemptsCount world0 1
           (LibError "i/o timeout")).
  - reflexivity.
  - reflexivity.
  - unfold AttemptsCount. lia.
  - intros j Hj. replace j with 0 by lia. reflexivity.
  - reflexivity.
Defined.

(** C5 (amended). In an exchange that opens its socket the read deadline
    is set exactly once, to [MaxWaitSec] seconds after the time of entry,
    right after the socket is opened and so before every send; no attempt
    sets it again. *)
Theorem C5_deadline_is_set_once_before_the_attempts
    ParseMessage net destination b ttl attempts w :
  listen_res (net ttl) = None ->
  exists rest,
    calls (snd (socketExchange ParseMessage net destination b ttl attempts w)) =
      calls w ++ [ListenPacket; SetReadDeadline (now w + MaxWaitSec * Second)]
              ++ rest /\
    countOps isDeadline rest = 0 /\
    countOps isDeadline
      ([ListenPacket; SetReadDeadline (now w + MaxWaitSec * Second)] ++ rest) = 1.
Proof.
  intros Hl.
  destruct (socketExchange_world ParseMessage net destination b ttl attempts w)
    as (ops & Ha & _ & Hc & _).
  rewrite Hl in Hc.
  assert (Hz : countOps isDeadline ops = 0).
  { apply attemptOps_count_zero; [|exact Ha].
    intros op; destruct op; cbn; congruence. }
  destruct (deadline_res (net ttl)) as [e|].
  - exists [Close]. rewrite Hc. repeat split.
  - exists (SetTTL ttl :: ops ++ [Close]). rewrite Hc.
    assert (Hr : countOps isDeadline (SetTTL ttl :: ops ++ [Close]) = 0).
    { change (SetTTL ttl :: ops ++ [Close]) with ([SetTTL ttl] ++ ops ++ [Close]).
      rewrite !countOps_app, Hz. reflexivity. }
    split; [reflexivity|]. split; [exact Hr|].
    rewrite countOps_app, Hr. reflexivity.
Qed.

Lemma C5_witness :
  exists rest,
    calls (snd (socketExchange parseHeader netSlow "10.0.0.3"%string sampleProbe
                  1 AttemptsCount world0)) =
      calls world0 ++ [ListenPacket;
                       SetReadDeadline (now world0 + MaxWaitSec * Second)]
                   ++ rest /\
    countOps isDeadline rest = 0 /\
    countOps isDeadline
      ([ListenPacket; SetReadDeadline (now world0 + MaxWaitSec * Second)]
         ++ rest) = 1.
Proof.
  apply (C5_deadline_is_set_once_before_the_attempts parseHeader netSlow
           "10.0.0.3"%string sampleProbe 1 AttemptsCount world0).
  reflexivity.
Defined.

(** C5 as stated fails: with three attempts answered after one second each,
    the second and third sends are not preceded by a new deadline, and the
    deadline in force when they are entered is not [MaxWaitSec] seconds
    ahead of them. *)
Lemma C5_counterexample :
  ~ (eachSendAfterReset false
       (calls (snd (socketExchange parseHeader netSlow "10.0.0.3"%string
                      sampleProbe 1 AttemptsCount world0))) = true) /\
  ~ (eachSendHasFreshDeadline None
       (calls (snd (socketExchange parseHeader netSlow "10.0.0.3"%string
                      sampleProbe 1 AttemptsCount world0))) = true).
Proof.
  split; vm_compute; discriminate.
Qed.

(** ** Address Presenter *)

Lemma index_head {A : Type} (x : A) (l : list A) : index (x :: l) 0 = Ok x.
Proof.
  unfold index, len. cbn [List.length]. rewrite Nat2Z.inj_succ.
  replace (0 <? Z.succ (Z.of_nat (List.length l))) with true
    by (symmetry; apply Z.ltb_lt; lia).
  reflexivity.
Qed.

Lemma index_nil {A : Type} (i : Z) : @index A [] i = Panic (IndexOutOfRange i 0).
Proof.
  unfold index, len. cbn [List.length].
  destruct ((0 <=? i) && (i <? Z.of_nat 0)) eqn:E; [|reflexivity].
  apply andb_true_iff in E as [E1 E2].
  apply Z.leb_le in E1. apply Z.ltb_lt in E2. lia.
Qed.

Lemma strlen_append (s1 s2 : string) :
  strlen (s1 ++ s2) = strlen s1 + strlen s2.
Proof.
  unfold strlen. induction s1 as [|c s1 IH]; cbn [append String.length].
  - reflexivity.
  - rewrite !Nat2Z.inj_succ. lia.
Qed.

Lemma substring_append_left (s1 s2 : string) :
  substring 0 (String.length s1) (s1 ++ s2) = s1.
Proof.
  induction s1 as [|c s1 IH]; cbn [append String.length substring].
  - destruct s2; reflexivity.
  - now rewrite IH.
Qed.

(** Cutting a suffix off again. *)
Lemma strTo_append (s1 s2 : string) :
  strTo (s1 ++ s2) (strlen (s1 ++ s2) - strlen s2) = Ok s1.
Proof.
  unfold strTo. rewrite strlen_append.
  replace (strlen s1 + strlen s2 - strlen s2) with (strlen s1) by lia.
  replace ((0 <=? strlen s1) && (strlen s1 <=? strlen s1 + strlen s2)) with true.
  - unfold strlen. rewrite Nat2Z.id, substring_append_left. reflexivity.
  - symmetry. apply andb_true_iff. unfold strlen.
    split; apply Z.leb_le; lia.
Qed.

Lemma append_assoc (s1 s2 s3 : string) : (s1 ++ (s2 ++ s3) = (s1 ++ s2) ++ s3)%string.
Proof. induction s1 as [|c s1 IH]; cbn [append]; [|rewrite IH]; reflexivity. Qed.

(** Adjacent elements of a constant sequence never differ. *)
Lemma identicalLoop_constant (a : Addr) (peers : list Addr) (acc : bool) :
  (forall p, In p peers -> p = a) -> identicalLoop peers acc = acc.
Proof.
  revert acc; induction peers as [|p peers IH]; intros acc Hall; [reflexivity|].
  destruct peers as [|q peers]; [reflexivity|].
  change (identicalLoop (p :: q :: peers) acc)
    with (identicalLoop (q :: peers)
            (if negb (String.eqb p q) then false else acc)).
  assert (Hp : p = a) by (apply Hall; cbn; tauto).
  assert (Hq : q = a) by (apply Hall; cbn; tauto).
  subst p q. rewrite String.eqb_refl. cbn [negb].
  apply IH. intros r Hr. apply Hall. now right.
Qed.

Section PresenterFacts.

Variable LookupAddr : string -> list string * option string.

Local Abbreviation ptrString' := (ptrString LookupAddr).
Local Abbreviation peersLoop' := (peersLoop LookupAddr).
Local Abbreviation createPeersString' := (createPeersString LookupAddr).

(** The display of a single address. *)
Lemma createPeersString_single (a : Addr) :
  createPeersString' [a] =
  (suffix <- ptrString' [a] ;; Ok ("[" ++ a ++ suffix ++ "]")%string).
Proof.
  unfold createPeersString. cbn [identicalLoop].
  rewrite index_head. cbn [bindGo peersLoop].
  destruct (ptrString' [a]) as [suffix|p]; [|reflexivity].
  cbn [bindGo].
  replace ("[" ++ a ++ suffix ++ "  ")%string
    with (("[" ++ a ++ suffix) ++ "  ")%string
    by (rewrite <- !append_assoc; reflexivity).
  change 2 with (strlen "  ") at 1.
  rewrite strTo_append. cbn [bindGo].
  rewrite <- !append_assoc. reflexivity.
Qed.

Lemma createPeersString_constant (a : Addr) (peers : list Addr) :
  peers <> [] ->
  (forall p, In p peers -> p = a) ->
  createPeersString' peers = createPeersString' [a].
Proof.
  intros Hne Hall. unfold createPeersString.
  rewrite (identicalLoop_constant a peers true Hall).
  destruct peers as [|p peers]; [contradiction|].
  rewrite (Hall p) by (cbn; tauto).
  rewrite index_head. reflexivity.
Qed.

(** The resolver is only ever asked about the first address. *)
Lemma ptrString_first (peers : list Addr) :
  ptrString' peers =
  ptrString (fun _ => LookupAddr (hd EmptyString peers)) peers.
Proof.
  unfold ptrString. destruct peers as [|p peers].
  - rewrite index_nil. reflexivity.
  - rewrite index_head. reflexivity.
Qed.

Lemma peersLoop_first (first : Addr) (peers rest : list Addr) (buffStr : string) :
  hd EmptyString peers = first ->
  peersLoop' peers rest buffStr =
  peersLoop (fun _ => LookupAddr first) peers rest buffStr.
Proof.
  intros Hhd. revert buffStr; induction rest as [|p rest IH]; intros buffStr;
    [reflexivity|].
  cbn [peersLoop].
  rewrite ptrString_first, Hhd.
  destruct (ptrString _ peers) as [s|e]; cbn [bindGo]; [apply IH|reflexivity].
Qed.

Lemma createPeersString_first (peers : list Addr) :
  createPeersString' peers =
  createPeersString (fun _ => LookupAddr (hd EmptyString peers)) peers.
Proof.
  unfold createPeersString.
  destruct (identicalLoop peers true).
  - destruct peers as [|p peers].
    + rewrite index_nil. reflexivity.
    + rewrite index_head. cbn [bindGo hd].
      rewrite (peersLoop_first p) by reflexivity. reflexivity.
  - cbn [bindGo]. rewrite (peersLoop_first (hd EmptyString peers)) by reflexivity.
    reflexivity.
Qed.

(** Panics of the presenter on a non-empty sequence come from slicing. *)
Lemma strTo_indexSafe (s : string) (hi : Z) : indexSafe (strTo s hi).
Proof. unfold strTo. destruct (_ && _); exact I. Qed.

Lemma namesLoop_indexSafe (ptr : list string) (ptrStr : string) :
  indexSafe (namesLoop ptr ptrStr).
Proof.
  revert ptrStr; induction ptr as [|name ptr IH]; intros ptrStr; [exact I|].
  cbn [namesLoop].
  pose proof (strTo_indexSafe name (strlen name - 1)) as H.
  destruct (strTo name (strlen name - 1)) as [s|p]; cbn [bindGo];
    [apply IH|exact H].
Qed.

Lemma ptrString_indexSafe (peers : list Addr) :
  peers <> [] -> indexSafe (ptrString' peers).
Proof.
  intros Hne. destruct peers as [|p peers]; [contradiction|].
  unfold ptrString. rewrite index_head. cbn [bindGo].
  destruct (0 <? len (fst (LookupAddr p))); [|exact I].
  pose proof (namesLoop_indexSafe (fst (LookupAddr p)) " (") as H.
  destruct (namesLoop (fst (LookupAddr p)) " (") as [s|e]; cbn [bindGo];
    [|exact H].
  pose proof (strTo_indexSafe s (strlen s - 2)) as H2.
  destruct (strTo s (strlen s - 2)); [exact I|exact H2].
Qed.

Lemma peersLoop_indexSafe (peers rest : list Addr) (buffStr : string) :
  peers <> [] -> indexSafe (peersLoop' peers rest buffStr).
Proof.
  intros Hne. revert buffStr; induction rest as [|p rest IH]; intros buffStr;
    [exact I|].
  cbn [peersLoop].
  pose proof (ptrString_indexSafe peers Hne) as H.
  destruct (ptrString' peers) as [s|e]; cbn [bindGo]; [apply IH|exact H].
Qed.

Lemma createPeersString_indexSafe (peers : list Addr) :
  peers <> [] -> indexSafe (createPeersString' peers).
Proof.
  intros Hne. unfold createPeersString.
  assert (Hloop : forall ps, ps <> [] ->
            indexSafe (buffStr <- peersLoop' ps ps "[" ;;
                       buffStr <- strTo buffStr (strlen buffStr - 2) ;;
                       Ok (buffStr ++ "]")%string)).
  { intros ps Hps. pose proof (peersLoop_indexSafe ps ps "[" Hps) as H.
    destruct (peersLoop' ps ps "[") as [s|e]; cbn [bindGo]; [|exact H].
    pose proof (strTo_indexSafe s (strlen s - 2)) as H2.
    destruct (strTo s (strlen s - 2)); [exact I|exact H2]. }
  destruct (identicalLoop peers true).
  - destruct peers as [|p peers]; [contradiction|].
    rewrite index_head. cbn [bindGo]. apply Hloop. discriminate.
  - cbn [bindGo]. apply Hloop. exact Hne.
Qed.

(** With non-empty names the presenter returns a string for every
    non-empty sequence. *)
Lemma strTo_ok (s : string) (hi : Z) :
  0 <= hi <= strlen s -> exists s', strTo s hi = Ok s'.
Proof.
  intros H. unfold strTo.
  replace ((0 <=? hi) && (hi <=? strlen s)) with true.
  - eexists. reflexivity.
  - symmetry. apply andb_true_iff. split; apply Z.leb_le; lia.
Qed.

Lemma strlen_pos (s : string) : s <> EmptyString -> 1 <= strlen s.
Proof.
  destruct s as [|c s]; [congruence|]. intros _.
  unfold strlen. cbn [String.length]. lia.
Qed.

Lemma strlen_nonneg (s : string) : 0 <= strlen s.
Proof. unfold strlen. lia. Qed.

Lemma namesLoop_ok (ptr : list string) (ptrStr : string) :
  (forall name, In name ptr -> name <> EmptyString) ->
  exists s, namesLoop ptr ptrStr = Ok s /\ strlen ptrStr <= strlen s.
Proof.
  revert ptrStr; induction ptr as [|name ptr IH]; intros ptrStr Hne.
  - exists ptrStr. split; [reflexivity|lia].
  - cbn [namesLoop].
    destruct (strTo_ok name (strlen name - 1)) as [stripped ->].
    { pose proof (strlen_pos name (Hne name (or_introl eq_refl))). lia. }
    cbn [bindGo].
    destruct (IH (ptrStr ++ stripped ++ "  ")%string) as (s & -> & Hs).
    { intros n Hn. apply Hne. now right. }
    exists s. split; [reflexivity|].
    rewrite strlen_append in Hs. pose proof (strlen_nonneg (stripped ++ "  ")). lia.
Qed.

Lemma ptrString_ok (peers : list Addr) :
  peers <> [] -> namesNonEmpty LookupAddr ->
  exists s, ptrString' peers = Ok s.
Proof.
  intros Hne Hnames. destruct peers as [|p peers]; [contradiction|].
  unfold ptrString. rewrite index_head. cbn [bindGo].
  destruct (0 <? len (fst (LookupAddr p))); [|eexists; reflexivity].
  destruct (namesLoop_ok (fst (LookupAddr p)) " (") as (s & -> & Hs).
  { intros name Hn. exact (Hnames p name Hn). }
  cbn [bindGo]. change (strlen " (") with 2 in Hs.
  destruct (strTo_ok s (strlen s - 2)) as [s' ->]; [lia|].
  eexists. reflexivity.
Qed.

Lemma peersLoop_ok (peers rest : list Addr) (buffStr : string) :
  peers <> [] -> namesNonEmpty LookupAddr ->
  exists s, peersLoop' peers rest buffStr = Ok s /\
            strlen buffStr + 2 * len rest <= strlen s.
Proof.
  intros Hne Hnames. revert buffStr; induction rest as [|p rest IH]; intros buffStr.
  - exists buffStr. split; [reflexivity|]. unfold len. cbn. lia.
  - cbn [peersLoop].
    destruct (ptrString_ok peers Hne Hnames) as [ptrStr ->]. cbn [bindGo].
    destruct (IH (buffStr ++ p ++ ptrStr ++ "  ")%string) as (s & -> & Hs).
    exists s. split; [reflexivity|].
    rewrite !strlen_append in Hs. change (strlen "  ") with 2 in Hs.
    pose proof (strlen_nonneg p). pose proof (strlen_nonneg ptrStr).
    unfold len in *. cbn [List.length]. rewrite Nat2Z.inj_succ. lia.
Qed.

Lemma createPeersString_ok (peers : list Addr) :
  peers <> [] -> namesNonEmpty LookupAddr ->
  exists s, createPeersString' peers = Ok s.
Proof.
  intros Hne Hnames. unfold createPeersString.
  assert (Hloop : forall ps, ps <> [] ->
            exists s, (buffStr <- peersLoop' ps ps "[" ;;
                       buffStr <- strTo buffStr (strlen buffStr - 2) ;;
                       Ok (buffStr ++ "]")%string) = Ok s).
  { intros ps Hps. destruct (peersLoop_ok ps ps "[" Hps Hnames) as (s & -> & Hs).
    cbn [bindGo].
    assert (1 <= len ps).
    { destruct ps; [contradiction|]. unfold len. cbn [List.length]. lia. }
    pose proof (strlen_nonneg "[").
    destruct (strTo_ok s (strlen s - 2)) as [s' ->]; [lia|].
    eexists. reflexivity. }
  destruct (identicalLoop peers true).
  - destruct peers as [|p peers]; [contradiction|].
    rewrite index_head. cbn [bindGo]. apply Hloop. discriminate.
  - cbn [bindGo]. apply Hloop. exact Hne.
Qed.

End PresenterFacts.

(** C8. The lookup inside the loop is made for [peersArray[0]] at every
    index: whatever the resolver, the output is the one obtained when every
    lookup is answered with the names of the first address.  For the
    responders 10.0.0.1, 10.0.0.2, 10.0.0.2, with 10.0.0.2 resolving to
    b.example, the second and third address are shown with the name of the
    first. *)
Theorem C8_every_address_gets_the_names_of_the_first :
  (forall LookupAddr peers,
      createPeersString LookupAddr peers =
      createPeersString (fun _ => LookupAddr (hd EmptyString peers)) peers) /\
  fst (twoHosts "10.0.0.2") = ["b.example."%string] /\
  createPeersString twoHosts ["10.0.0.1"; "10.0.0.2"; "10.0.0.2"]%string
  = Ok "[10.0.0.1 (a.example)  10.0.0.2 (a.example)  10.0.0.2 (a.example)]"%string.
Proof.
  split; [exact createPeersString_first|].
  split; reflexivity.
Qed.

(** C9. A non-empty address sequence whose elements are all the same
    address is presented exactly as the one-element sequence of that
    address: the address once, followed by its names, in brackets.  In
    particular n >= 1 copies of an address give the output of one copy.
    When the resolver hands back no empty name, that output is a string
    (no panic). *)
Theorem C9_identical_addresses_collapse
    LookupAddr (a : Addr) (peers : list Addr) :
  peers <> [] ->
  (forall p, In p peers -> p = a) ->
  createPeersString LookupAddr peers = createPeersString LookupAddr [a] /\
  createPeersString LookupAddr [a] =
    (suffix <- ptrString LookupAddr [a] ;; Ok ("[" ++ a ++ suffix ++ "]")%string) /\
  (forall n : nat, (1 <= n)%nat ->
     createPeersString LookupAddr (List.repeat a n)
     = createPeersString LookupAddr [a]) /\
  (namesNonEmpty LookupAddr ->
   exists s, createPeersString LookupAddr peers = Ok s).
Proof.
  intros Hne Hall. split; [now apply createPeersString_constant|].
  split; [apply createPeersString_single|]. split.
  - intros n Hn. apply createPeersString_constant.
    + destruct n; [lia|discriminate].
    + intros p Hp. now apply repeat_spec in Hp.
  - intros Hnames. now apply createPeersString_ok.
Qed.

Lemma C9_witness :
  createPeersString twoHosts (List.repeat "10.0.0.1"%string 5)
  = createPeersString twoHosts ["10.0.0.1"%string] /\
  createPeersString twoHosts ["10.0.0.1"%string] =
    (suffix <- ptrString twoHosts ["10.0.0.1"%string] ;;
     Ok ("[" ++ "10.0.0.1" ++ suffix ++ "]")%string) /\
  (forall n : nat, (1 <= n)%nat ->
     createPeersString twoHosts (List.repeat "10.0.0.1"%string n)
     = createPeersString twoHosts ["10.0.0.1"%string]) /\
  (namesNonEmpty twoHosts ->
   exists s, createPeersString twoHosts (List.repeat "10.0.0.1"%string 5) = Ok s).
Proof.
  apply (C9_identical_addresses_collapse twoHosts "10.0.0.1"%string
           (List.repeat "10.0.0.1"%string 5)).
  - discriminate.
  - intros p Hp. now apply repeat_spec in Hp.
Defined.

(** C10. An exchange that returns without error returns a non-nil
    classification that is EchoReply or TimeExceeded, and one duration and
    one responder per attempt: as many as [attempts] when that is not
    negative.  So with a positive attempt count the responder list is not
    empty, and [createPeersString] does not panic on an index. *)
Theorem C10_success_has_classification_and_full_lists
    ParseMessage LookupAddr net destination b ttl attempts w ds ps ty :
  fst (socketExchange ParseMessage net destination b ttl attempts w)
  = (ds, ps, ty, None) ->
  (ty = Some ICMPTypeEchoReply \/ ty = Some ICMPTypeTimeExceeded) /\
  List.length ds = Z.to_nat attempts /\
  List.length ps = Z.to_nat attempts /\
  (0 <= attempts -> len ds = attempts /\ len ps = attempts) /\
  (0 < attempts ->
   ps <> [] /\
   (exists first, index ps 0 = Ok first) /\
   indexSafe (createPeersString LookupAddr ps)).
Proof.
  intros Hres.
  pose proof (socketExchange_inv ParseMessage net destination b ttl attempts w) as H.
  rewrite Hres in H. destruct H as (Hty & Hds & Hps).
  split; [exact Hty|]. split; [exact Hds|]. split; [exact Hps|].
  split; [unfold len; lia|].
  intros Hpos.
  assert (Hne : ps <> []).
  { intros ->. cbn in Hps. lia. }
  split; [exact Hne|]. split.
  - destruct ps as [|p ps']; [contradiction|]. exists p. apply index_head.
  - now apply createPeersString_indexSafe.
Qed.

Lemma C10_witness :
  (Some ICMPTypeEchoReply = Some ICMPTypeEchoReply
   \/ Some ICMPTypeEchoReply = Some ICMPTypeTimeExceeded) /\
  List.length [3000000; 3000000; 3000000] = Z.to_nat AttemptsCount /\
  List.length ["10.0.0.3"; "10.0.0.3"; "10.0.0.3"]%string = Z.to_nat AttemptsCount /\
  (0 <= AttemptsCount ->
   len [3000000; 3000000; 3000000] = AttemptsCount /\
   len ["10.0.0.3"; "10.0.0.3"; "10.0.0.3"]%string = AttemptsCount) /\
  (0 < AttemptsCount ->
   ["10.0.0.3"; "10.0.0.3"; "10.0.0.3"]%string <> [] /\
   (exists first, index ["10.0.0.3"; "10.0.0.3"; "10.0.0.3"]%string 0 = Ok first) /\
   indexSafe (createPeersString twoHosts ["10.0.0.3"; "10.0.0.3"; "10.0.0.3"]%string)).
Proof.
  apply (C10_success_has_classification_and_full_lists parseHeader twoHosts
           netThreeHops "10.0.0.3"%string sampleProbe 3 AttemptsCount world0).
  reflexivity.
Defined.

(** ** Hop Prober and Trace Controller *)

Lemma echoData_MsgLength :
  echoData MsgLength = Ok (List.concat (List.repeat dataChunk 14)).
Proof. reflexivity. Qed.

Section ControllerFacts.

Variable Getpid : Z.
Variable Marshal : Message -> list byte * option string.
Variable ParseMessage : Z -> list byte -> string + Message.
Variable LookupAddr : string -> list string * option string.
Variable net : Z -> HopEnv.
Variable destination : Addr.

Local Abbreviation probe := (probeBytes Getpid Marshal).
Local Abbreviation exchange :=
  (fun ttl w => socketExchange ParseMessage net destination probe ttl AttemptsCount w).
Local Abbreviation ping' := (ping Getpid Marshal ParseMessage LookupAddr net destination).
Local Abbreviation sweepLoop' :=
  (fun n => sweepLoop Getpid Marshal ParseMessage LookupAddr net n destination).
Local Abbreviation hopVerdict' :=
  (hopVerdict Getpid Marshal ParseMessage LookupAddr net destination).
Local Abbreviation hopError' :=
  (hopError Getpid Marshal ParseMessage net destination).
Local Abbreviation machineRun' :=
  (machineRun Getpid Marshal ParseMessage LookupAddr net destination).

(** Building the probe never panics. *)
Lemma buildEchoRequest_probe :
  exists err,
    buildEchoRequest Getpid Marshal ICMPTypeEcho MsgLength = Ok (probe, err).
Proof.
  unfold probeBytes, buildEchoRequest. rewrite echoData_MsgLength.
  cbn [bindGo]. destruct (Marshal _) as [bytes err]. eexists. reflexivity.
Qed.

(** [ping] unfolded at the probe it sends. *)
Lemma ping_eq ttl w :
  ping' ttl w =
  let '((durationsArray, peersArray, t, err), w') := exchange ttl w in
  match err with
  | None =>
    match t with
    | Some t =>
      if t =? ICMPTypeEchoReply then
        match createPeersString LookupAddr peersArray with
        | Panic p => (Panic p, w')
        | Ok s => (Ok true, print (LineReached ttl durationsArray s) w')
        end
      else if t =? ICMPTypeTimeExceeded then
        match createPeersString LookupAddr peersArray with
        | Panic p => (Panic p, w')
        | Ok s => (Ok false, print (LineTTLExc ttl durationsArray s) w')
        end
      else (Ok false, w')
    | None => (Ok false, w')
    end
  | Some _ => (Ok false, print (LineError ttl) w')
  end.
Proof.
  unfold ping. destruct buildEchoRequest_probe as [err ->]. reflexivity.
Qed.

(** A failed exchange is reported as an error line, and the hop is not
    the destination. *)
Lemma ping_error ttl w e :
  errorOf (fst (exchange ttl w)) = Some e ->
  ping' ttl w = (Ok false, print (LineError ttl) (snd (exchange ttl w))).
Proof.
  intros He. rewrite ping_eq.
  destruct (exchange ttl w) as [[[[ds ps] ty] err] w'].
  cbn in He. subst err. reflexivity.
Qed.

Lemma ping_fst_indep ttl w1 w2 : fst (ping' ttl w1) = fst (ping' ttl w2).
Proof.
  rewrite !ping_eq.
  pose proof (socketExchange_fst_indep ParseMessage net destination probe ttl
                AttemptsCount w1 w2) as H.
  destruct (exchange ttl w1) as [[[[ds1 ps1] ty1] err1] w1'].
  destruct (exchange ttl w2) as [[[[ds2 ps2] ty2] err2] w2'].
  cbn [fst] in H. injection H as -> -> -> ->.
  destruct err2; [reflexivity|]. destruct ty2 as [ty|]; [|reflexivity].
  destruct (ty =? ICMPTypeEchoReply).
  { destruct (createPeersString LookupAddr ps2); reflexivity. }
  destruct (ty =? ICMPTypeTimeExceeded); [|reflexivity].
  destruct (createPeersString LookupAddr ps2); reflexivity.
Qed.

Lemma ping_verdict ttl w : fst (ping' ttl w) = hopVerdict' ttl.
Proof. apply ping_fst_indep. Qed.

Lemma exchange_error ttl w : errorOf (fst (exchange ttl w)) = hopError' ttl.
Proof.
  unfold hopError.
  now rewrite (socketExchange_fst_indep ParseMessage net destination probe ttl
                 AttemptsCount w world0).
Qed.

(** The calls of one exchange, seen from the sweep: the socket is opened
    once, and no hop limit but [ttl] is set. *)
Lemma exchange_calls ttl w :
  exists rest,
    calls (snd (exchange ttl w)) = calls w ++ ListenPacket :: rest /\
    countOps isListen rest = 0 /\
    (forall h, In h (hopLimitsSet rest) -> h = ttl) /\
    stdout (snd (exchange ttl w)) = stdout w.
Proof.
  destruct (socketExchange_world ParseMessage net destination probe ttl
              AttemptsCount w) as (ops & Ha & _ & Hc & Ho).
  eexists. split; [exact Hc|]. split; [|split; [|exact Ho]].
  - assert (Hz : countOps isListen ops = 0).
    { apply attemptOps_count_zero; [|exact Ha].
      intros op; destruct op; cbn; congruence. }
    destruct (listen_res (net ttl)); [reflexivity|].
    destruct (deadline_res (net ttl)); [reflexivity|].
    change (SetReadDeadline (now w + MaxWaitSec * Second) :: SetTTL ttl :: ops ++ [Close])
      with ([SetReadDeadline (now w + MaxWaitSec * Second); SetTTL ttl] ++ ops ++ [Close]).
    rewrite !countOps_app, Hz. reflexivity.
  - intros h.
    destruct (listen_res (net ttl)); [intros []|].
    destruct (deadline_res (net ttl)); [intros []|].
    cbn [hopLimitsSet]. rewrite hopLimitsSet_app, (attemptOps_no_hopLimit ops Ha).
    cbn. intros [H|[]]. now symmetry.
Qed.

Lemma ping_calls ttl w :
  exists rest,
    calls (snd (ping' ttl w)) = calls w ++ ListenPacket :: rest /\
    countOps isListen rest = 0 /\
    (forall h, In h (hopLimitsSet rest) -> h = ttl).
Proof.
  destruct (exchange_calls ttl w) as (rest & Hc & Hl & Hh & _).
  exists rest. split; [|split; assumption].
  rewrite ping_eq.
  destruct (exchange ttl w) as [[[[ds ps] ty] err] w']. cbn [snd] in Hc.
  destruct err; [exact Hc|]. destruct ty as [ty|]; [|exact Hc].
  destruct (ty =? ICMPTypeEchoReply).
  { destruct (createPeersString LookupAddr ps); exact Hc. }
  destruct (ty =? ICMPTypeTimeExceeded); [|exact Hc].
  destruct (createPeersString LookupAddr ps); exact Hc.
Qed.

(** The sweep opens at most one socket per iteration and sets no hop limit
    outside the range it was given. *)
Lemma sweepLoop_calls n i w :
  exists ops,
    calls (snd (sweepLoop' n i w)) = calls w ++ ops /\
    countOps isListen ops <= Z.of_nat n /\
    (forall h, In h (hopLimitsSet ops) -> i <= h < i + Z.of_nat n).
Proof.
  revert i w; induction n as [|n IH]; intros i w.
  - exists []. cbn. rewrite app_nil_r. repeat split; lia.
  - cbn [sweepLoop].
    destruct (ping_calls i w) as (rest & Hc & Hl & Hh).
    assert (Hone : countOps isListen (ListenPacket :: rest) = 1).
    { change (ListenPacket :: rest) with ([ListenPacket] ++ rest).
      rewrite countOps_app, Hl. reflexivity. }
    assert (Hin : forall h, In h (hopLimitsSet (ListenPacket :: rest)) -> h = i)
      by exact Hh.
    destruct (ping' i w) as [[[|]|p] w']; cbn [snd] in Hc |- *.
    + exists (ListenPacket :: rest). split; [exact Hc|]. split; [lia|].
      intros h Hi. apply Hin in Hi. lia.
    + destruct (IH (i + 1) w') as (ops & Hc2 & Hl2 & Hh2).
      exists ((ListenPacket :: rest) ++ ops).
      rewrite Hc2, Hc, <- app_assoc. split; [reflexivity|].
      rewrite countOps_app, Hone, hopLimitsSet_app. split; [lia|].
      intros h Hi. apply in_app_or in Hi as [Hi|Hi].
      * apply Hin in Hi. lia.
      * apply Hh2 in Hi. lia.
    + exists (ListenPacket :: rest). split; [exact Hc|]. split; [lia|].
      intros h Hi. apply Hin in Hi. lia.
Qed.

(** The first hop limit whose verdict is "reached" ends the sweep. *)
Lemma sweepLoop_reached n i k w :
  i <= k < i + Z.of_nat n ->
  (forall j, i <= j < k -> hopVerdict' j = Ok false) ->
  hopVerdict' k = Ok true ->
  fst (sweepLoop' n i w) = Ok Break /\
  exists ops,
    calls (snd (sweepLoop' n i w)) = calls w ++ ops /\
    countOps isListen ops = k - i + 1 /\
    (forall h, In h (hopLimitsSet ops) -> i <= h <= k).
Proof.
  revert i w; induction n as [|n IH]; intros i w Hk Hbefore Hat; [lia|].
  cbn [sweepLoop].
  destruct (ping_calls i w) as (rest & Hc & Hl & Hh).
  assert (Hone : countOps isListen (ListenPacket :: rest) = 1).
  { change (ListenPacket :: rest) with ([ListenPacket] ++ rest).
    rewrite countOps_app, Hl. reflexivity. }
  assert (Hin : forall h, In h (hopLimitsSet (ListenPacket :: rest)) -> h = i)
    by exact Hh.
  pose proof (ping_verdict i w) as Hv.
  destruct (Z.eq_dec i k) as [->|Hne].
  - rewrite Hat in Hv.
    destruct (ping' k w) as [r w']; cbn [fst snd] in *. subst r.
    split; [reflexivity|].
    exists (ListenPacket :: rest). split; [exact Hc|]. split; [lia|].
    intros h Hi. apply Hin in Hi. lia.
  - rewrite (Hbefore i) in Hv by lia.
    destruct (ping' i w) as [r w']; cbn [fst snd] in *. subst r.
    destruct (IH (i + 1) w') as (Hfst & ops & Hc2 & Hl2 & Hh2);
      [lia|intros j Hj; apply Hbefore; lia|exact Hat|].
    split; [exact Hfst|].
    exists ((ListenPacket :: rest) ++ ops).
    rewrite Hc2, Hc, <- app_assoc. split; [reflexivity|].
    rewrite countOps_app, Hone, hopLimitsSet_app. split; [lia|].
    intros h Hi. apply in_app_or in Hi as [Hi|Hi].
    + apply Hin in Hi. lia.
    + apply Hh2 in Hi. lia.
Qed.

(** Without a "reached" verdict the sweep runs all its iterations. *)
Lemma sweepLoop_exhausted n i w :
  (forall j, i <= j < i + Z.of_nat n -> hopVerdict' j = Ok false) ->
  fst (sweepLoop' n i w) = Ok CondFalse /\
  exists ops,
    calls (snd (sweepLoop' n i w)) = calls w ++ ops /\
    countOps isListen ops = Z.of_nat n.
Proof.
  revert i w; induction n as [|n IH]; intros i w Hall.
  - split; [reflexivity|]. exists []. cbn. rewrite app_nil_r. split; reflexivity.
  - cbn [sweepLoop].
    destruct (ping_calls i w) as (rest & Hc & Hl & _).
    assert (Hone : countOps isListen (ListenPacket :: rest) = 1).
    { change (ListenPacket :: rest) with ([ListenPacket] ++ rest).
      rewrite countOps_app, Hl. reflexivity. }
    pose proof (ping_verdict i w) as Hv.
    rewrite (Hall i) in Hv by lia.
    destruct (ping' i w) as [r w']; cbn [fst snd] in *. subst r.
    destruct (IH (i + 1) w') as (Hfst & ops & Hc2 & Hl2);
      [intros j Hj; apply Hall; lia|].
    split; [exact Hfst|].
    exists ((ListenPacket :: rest) ++ ops).
    rewrite Hc2, Hc, <- app_assoc. split; [reflexivity|].
    rewrite countOps_app, Hone. lia.
Qed.

(** When every exchange fails, every hop limit gets its error line. *)
Lemma sweepLoop_errors n i w :
  (forall j, i <= j < i + Z.of_nat n -> hopError' j <> None) ->
  fst (sweepLoop' n i w) = Ok CondFalse /\
  stdout (snd (sweepLoop' n i w)) = stdout w ++ map LineError (upto n i) /\
  exists ops,
    calls (snd (sweepLoop' n i w)) = calls w ++ ops /\
    countOps isListen ops = Z.of_nat n.
Proof.
  revert i w; induction n as [|n IH]; intros i w Hall.
  - cbn. rewrite app_nil_r. repeat split. exists []. now rewrite app_nil_r.
  - cbn [sweepLoop upto map].
    destruct (exchange_calls i w) as (rest & Hc & Hl & _ & Ho).
    assert (Hone : countOps isListen (ListenPacket :: rest) = 1).
    { change (ListenPacket :: rest) with ([ListenPacket] ++ rest).
      rewrite countOps_app, Hl. reflexivity. }
    destruct (hopError' i) as [e|] eqn:He; [|elim (Hall i ltac:(lia) He)].
    rewrite <- (exchange_error i w) in He.
    rewrite (ping_error i w e He).
    destruct (IH (i + 1) (print (LineError i) (snd (exchange i w))))
      as (Hfst & Hout & ops & Hc2 & Hl2); [intros j Hj; apply Hall; lia|].
    split; [exact Hfst|]. split.
    + rewrite Hout. cbn [print stdout]. rewrite Ho, <- app_assoc. reflexivity.
    + exists ((ListenPacket :: rest) ++ ops).
      rewrite Hc2. cbn [print calls]. rewrite Hc, <- app_assoc.
      split; [reflexivity|]. rewrite countOps_app, Hone. lia.
Qed.

Lemma machineRun_terminal steps s w :
  isTerminal s = true -> machineRun' steps s w = (Ok s, w).
Proof.
  intros Hs. induction steps as [|steps IH]; [reflexivity|].
  destruct s; [discriminate| |]; cbn [machineRun machineStep]; exact IH.
Qed.

(** The loop is the machine started at the loop's hop limit. *)
Lemma sweepLoop_refines n i w :
  (1 <= n)%nat ->
  i + Z.of_nat n = MaxTTL + 1 ->
  machineRun' n (Sweeping i) w = machineOfLoop (sweepLoop' n i w).
Proof.
  revert i w; induction n as [|n IH]; intros i w Hn Hi; [lia|].
  cbn [machineRun machineStep sweepLoop].
  destruct (ping' i w) as [[[|]|p] w']; cbn [machineOfLoop].
  - rewrite machineRun_terminal by reflexivity. reflexivity.
  - destruct n as [|n].
    + replace (i + 1 >? MaxTTL) with true
        by (symmetry; apply Z.gtb_lt; lia).
      reflexivity.
    + replace (i + 1 >? MaxTTL) with false.
      * apply IH; lia.
      * symmetry. rewrite Z.gtb_ltb. apply Z.ltb_ge. lia.
  - reflexivity.
Qed.

(** [ping] answers true only for an exchange classified EchoReply. *)
Lemma ping_true_classification ttl w :
  fst (ping' ttl w) = Ok true ->
  classification (fst (exchange ttl w)) = Some ICMPTypeEchoReply /\
  errorOf (fst (exchange ttl w)) = None.
Proof.
  rewrite ping_eq.
  destruct (exchange ttl w) as [[[[ds ps] ty] err] w']. cbn [fst].
  destruct err; [discriminate|]. destruct ty as [ty|]; [|discriminate].
  destruct (ty =? ICMPTypeEchoReply) eqn:E.
  { apply Z.eqb_eq in E. subst ty. intros _. split; reflexivity. }
  destruct (ty =? ICMPTypeTimeExceeded); [|discriminate].
  destruct (createPeersString LookupAddr ps); discriminate.
Qed.

(** For an exchange classified EchoReply [ping] answers true, unless the
    presenter panics. *)
Lemma ping_classification_true ttl w :
  classification (fst (exchange ttl w)) = Some ICMPTypeEchoReply ->
  errorOf (fst (exchange ttl w)) = None ->
  fst (ping' ttl w) = Ok true \/ exists p, fst (ping' ttl w) = Panic p.
Proof.
  rewrite ping_eq.
  destruct (exchange ttl w) as [[[[ds ps] ty] err] w'].
  cbn [fst classification errorOf snd]. intros -> ->.
  cbn [Z.eqb ICMPTypeEchoReply].
  destruct (createPeersString LookupAddr ps) as [s|p];
    [left; reflexivity|right; exists p; reflexivity].
Qed.

(** With non-empty names [ping] returns, and answers true exactly for an
    exchange classified EchoReply. *)
Lemma ping_total ttl w :
  namesNonEmpty LookupAddr ->
  exists r, fst (ping' ttl w) = Ok r /\
            (r = true <->
             classification (fst (exchange ttl w)) = Some ICMPTypeEchoReply).
Proof.
  intros Hnames. rewrite ping_eq.
  pose proof (socketExchange_inv ParseMessage net destination probe ttl
                AttemptsCount w) as Hinv.
  destruct (exchange ttl w) as [[[[ds ps] ty] err] w'].
  cbn [fst snd classification] in *.
  destruct err as [e|].
  { destruct Hinv as [-> _]. exists false. split; [reflexivity|].
    split; discriminate. }
  destruct Hinv as (Hty & _ & Hps).
  assert (Hne : ps <> []).
  { intros ->. cbn in Hps. discriminate. }
  destruct (createPeersString_ok LookupAddr ps Hne Hnames) as [s Hs].
  destruct Hty as [-> | ->]; cbn; rewrite Hs; cbn [fst].
  - exists true. split; [reflexivity|]. split; reflexivity.
  - exists false. split; [reflexivity|]. split; discriminate.
Qed.

Lemma sweepLoop_total n i w :
  namesNonEmpty LookupAddr ->
  exists e, fst (sweepLoop' n i w) = Ok e.
Proof.
  intros Hnames. revert i w; induction n as [|n IH]; intros i w.
  - exists CondFalse. reflexivity.
  - cbn [sweepLoop].
    destruct (ping_total i w Hnames) as (r & Hr & _).
    destruct (ping' i w) as [v w']. cbn [fst] in Hr. subst v.
    destruct r; [exists Break; reflexivity|apply IH].
Qed.

(** An attempt whose read fails after a full send has that failure as its
    error. *)
Lemma timeouts_hopError :
  everyAttemptTimesOut net probe ->
  forall h, hopError' h <> None.
Proof.
  intros Hall h. destruct (Hall h 0) as (Hl & Hd & Hw & e & Hr).
  unfold hopError.
  destruct (socketExchange_abort ParseMessage net destination probe h
              AttemptsCount world0 0 (LibError e) Hl Hd) as [Hfst _].
  - unfold AttemptsCount. lia.
  - intros j Hj. lia.
  - unfold attemptError. rewrite Hw, Z.eqb_refl, Hr. reflexivity.
  - rewrite Hfst. discriminate.
Qed.

(** The loop of lines 189-193, started at hop limit 1 for MaxTTL
    iterations, against the state machine. *)
Lemma sweepLoop_is_the_machine (w : World) :
  machineRun' (Z.to_nat MaxTTL) (Sweeping 1) w
  = machineOfLoop (sweepLoop' (Z.to_nat MaxTTL) 1 w) /\
  (forall s, fst (machineRun' (Z.to_nat MaxTTL) (Sweeping 1) w) = Ok s ->
             isTerminal s = true) /\
  (exists ops,
      calls (snd (sweepLoop' (Z.to_nat MaxTTL) 1 w)) = calls w ++ ops /\
      countOps isListen ops <= MaxTTL /\
      (forall h, In h (hopLimitsSet ops) -> 1 <= h <= MaxTTL)) /\
  (forall h, hopVerdict' h = Ok true ->
             classification (fst (exchange h world0)) = Some ICMPTypeEchoReply) /\
  (forall h, classification (fst (exchange h world0)) = Some ICMPTypeEchoReply ->
             errorOf (fst (exchange h world0)) = None ->
             hopVerdict' h = Ok true \/ exists p, hopVerdict' h = Panic p) /\
  (forall k, 1 <= k <= MaxTTL ->
             (forall j, 1 <= j < k -> hopVerdict' j = Ok false) ->
             hopVerdict' k = Ok true ->
             fst (sweepLoop' (Z.to_nat MaxTTL) 1 w) = Ok Break /\
             exists ops,
               calls (snd (sweepLoop' (Z.to_nat MaxTTL) 1 w)) = calls w ++ ops /\
               countOps isListen ops = k /\
               (forall h, In h (hopLimitsSet ops) -> 1 <= h <= k)) /\
  ((forall j, 1 <= j <= MaxTTL -> hopVerdict' j = Ok false) ->
   fst (sweepLoop' (Z.to_nat MaxTTL) 1 w) = Ok CondFalse /\
   exists ops,
     calls (snd (sweepLoop' (Z.to_nat MaxTTL) 1 w)) = calls w ++ ops /\
     countOps isListen ops = MaxTTL) /\
  (namesNonEmpty LookupAddr ->
   (forall h, exists r,
       hopVerdict' h = Ok r /\
       (r = true <->
        classification (fst (exchange h world0)) = Some ICMPTypeEchoReply)) /\
   exists s,
     fst (machineRun' (Z.to_nat MaxTTL) (Sweeping 1) w) = Ok s /\
     (s = Reached \/ s = Exhausted)).
Proof.
  assert (Hn : Z.of_nat (Z.to_nat MaxTTL) = MaxTTL) by reflexivity.
  assert (Hrefines : machineRun' (Z.to_nat MaxTTL) (Sweeping 1) w
                     = machineOfLoop (sweepLoop' (Z.to_nat MaxTTL) 1 w)).
  { apply sweepLoop_refines; [unfold MaxTTL; lia|rewrite Hn; lia]. }
  split; [exact Hrefines|]. split; [|split; [|split; [|split; [|split; [|split]]]]].
  - intros s. rewrite Hrefines.
    destruct (sweepLoop' (Z.to_nat MaxTTL) 1 w) as [[e|p] w'];
      cbn [machineOfLoop fst]; [|discriminate].
    intros [= <-]. destruct e; reflexivity.
  - destruct (sweepLoop_calls (Z.to_nat MaxTTL) 1 w) as (ops & Hc & Hl & Hh).
    exists ops. split; [exact Hc|]. rewrite Hn in Hl, Hh. split; [exact Hl|].
    intros h Hi. apply Hh in Hi. lia.
  - intros h Hv. apply ping_true_classification. exact Hv.
  - intros h Hc He. apply ping_classification_true; assumption.
  - intros k Hk Hbefore Hat.
    destruct (sweepLoop_reached (Z.to_nat MaxTTL) 1 k w) as (Hfst & ops & Hc & Hl & Hh);
      [rewrite Hn; lia|exact Hbefore|exact Hat|].
    split; [exact Hfst|]. exists ops. split; [exact Hc|]. split; [lia|exact Hh].
  - intros Hall.
    destruct (sweepLoop_exhausted (Z.to_nat MaxTTL) 1 w) as (Hfst & ops & Hc & Hl);
      [intros j Hj; apply Hall; rewrite Hn in Hj; lia|].
    split; [exact Hfst|]. exists ops. split; [exact Hc|]. rewrite Hl. exact Hn.
  - intros Hnames. split.
    + intros h. apply ping_total. exact Hnames.
    + rewrite Hrefines.
      destruct (sweepLoop_total (Z.to_nat MaxTTL) 1 w Hnames) as [e He].
      destruct (sweepLoop' (Z.to_nat MaxTTL) 1 w) as [r w'].
      cbn [fst] in He. subst r. cbn [machineOfLoop fst].
      exists (stateOfExit e). split; [reflexivity|].
      destruct e; [left|right]; reflexivity.
Qed.

Variable ResolveIPAddr : string -> string -> Addr * option string.

Local Abbreviation tracert' :=
  (tracert Getpid Marshal ParseMessage LookupAddr ResolveIPAddr net).

(** [tracert] on an address that resolves. *)
Lemma tracert_resolved addr w :
  ResolveIPAddr "ip4" addr = (destination, None) ->
  tracert' addr w =
  match sweepLoop' (Z.to_nat MaxTTL) 1 (print (LineTracing addr MaxTTL) w) with
  | (Panic p, w') => (Panic p, w')
  | (Ok e, w') => (Ok (Some e), print LineEnded w')
  end.
Proof. intros Hres. unfold tracert. rewrite Hres. reflexivity. Qed.

(** C4. [tracert], on an address that resolves, is the state machine
    {Sweeping h, Reached, Exhausted} started in Sweeping 1 and run for
    MaxTTL steps: after them the machine is in a terminal state, Reached
    when [tracert] left its loop by [break] and Exhausted when the loop
    condition became false (a panic of the presenter ends both).  [tracert]
    opens at most MaxTTL sockets (one per iteration) and sets hop limits
    within 1..MaxTTL only.  If hop limit k is the first that [ping] reports
    as reached (which it does only for an exchange classified EchoReply)
    [tracert] leaves its loop by [break] after exactly k iterations and no
    hop limit above k is set; if none is reported as reached, the loop
    ends after exactly MaxTTL iterations with its condition false.  When
    the resolver hands back no empty name, no step panics: [ping] reports
    a hop as reached exactly when its exchange is classified EchoReply,
    and [tracert] ends in Reached or Exhausted. *)
Theorem C4_tracert_is_the_state_machine (addr : string) (w : World) :
  ResolveIPAddr "ip4" addr = (destination, None) ->
  match machineRun' (Z.to_nat MaxTTL) (Sweeping 1)
          (print (LineTracing addr MaxTTL) w) with
  | (Ok Reached, w') =>
    tracert' addr w = (Ok (Some Break), print LineEnded w')
  | (Ok Exhausted, w') =>
    tracert' addr w = (Ok (Some CondFalse), print LineEnded w')
  | (Ok (Sweeping _), _) => False
  | (Panic p, w') => tracert' addr w = (Panic p, w')
  end /\
  (exists ops,
      calls (snd (tracert' addr w)) = calls w ++ ops /\
      countOps isListen ops <= MaxTTL /\
      (forall h, In h (hopLimitsSet ops) -> 1 <= h <= MaxTTL)) /\
  (forall h, hopVerdict' h = Ok true ->
             classification (fst (exchange h world0)) = Some ICMPTypeEchoReply) /\
  (forall h, classification (fst (exchange h world0)) = Some ICMPTypeEchoReply ->
             errorOf (fst (exchange h world0)) = None ->
             hopVerdict' h = Ok true \/ exists p, hopVerdict' h = Panic p) /\
  (forall k, 1 <= k <= MaxTTL ->
             (forall j, 1 <= j < k -> hopVerdict' j = Ok false) ->
             hopVerdict' k = Ok true ->
             fst (tracert' addr w) = Ok (Some Break) /\
             exists ops,
               calls (snd (tracert' addr w)) = calls w ++ ops /\
               countOps isListen ops = k /\
               (forall h, In h (hopLimitsSet ops) -> 1 <= h <= k)) /\
  ((forall j, 1 <= j <= MaxTTL -> hopVerdict' j = Ok false) ->
   fst (tracert' addr w) = Ok (Some CondFalse) /\
   exists ops,
     calls (snd (tracert' addr w)) = calls w ++ ops /\
     countOps isListen ops = MaxTTL) /\
  (namesNonEmpty LookupAddr ->
   (forall h, exists r,
       hopVerdict' h = Ok r /\
       (r = true <->
        classification (fst (exchange h world0)) = Some ICMPTypeEchoReply)) /\
   exists e,
     fst (tracert' addr w) = Ok (Some e) /\
     fst (machineRun' (Z.to_nat MaxTTL) (Sweeping 1)
            (print (LineTracing addr MaxTTL) w)) = Ok (stateOfExit e) /\
     (stateOfExit e = Reached \/ stateOfExit e = Exhausted)).
Proof.
  intros Hres.
  destruct (sweepLoop_is_the_machine (print (LineTracing addr MaxTTL) w))
    as (Hrefines & _ & Hcalls & Hv1 & Hv2 & Hreach & Hexh & Hnames).
  rewrite (tracert_resolved addr w Hres). rewrite Hrefines.
  change (calls (print (LineTracing addr MaxTTL) w)) with (calls w) in *.
  split; [|split; [|split; [exact Hv1|split; [exact Hv2|split; [|split]]]]].
  - destruct (sweepLoop' (Z.to_nat MaxTTL) 1 (print (LineTracing addr MaxTTL) w))
      as [[[|]|p] w']; reflexivity.
  - destruct Hcalls as (ops & Hc & Hl & Hh). exists ops.
    split; [|split; assumption].
    destruct (sweepLoop' (Z.to_nat MaxTTL) 1 (print (LineTracing addr MaxTTL) w))
      as [[e|p] w']; exact Hc.
  - intros k Hk Hbefore Hat.
    destruct (Hreach k Hk Hbefore Hat) as (Hfst & ops & Hc & Hl & Hh).
    destruct (sweepLoop' (Z.to_nat MaxTTL) 1 (print (LineTracing addr MaxTTL) w))
      as [r w']. cbn [fst snd] in Hfst, Hc. subst r.
    split; [reflexivity|]. exists ops.
    split; [exact Hc|]. split; [exact Hl|exact Hh].
  - intros Hall.
    destruct (Hexh Hall) as (Hfst & ops & Hc & Hl).
    destruct (sweepLoop' (Z.to_nat MaxTTL) 1 (print (LineTracing addr MaxTTL) w))
      as [r w']. cbn [fst snd] in Hfst, Hc. subst r.
    split; [reflexivity|]. exists ops. split; assumption.
  - intros Hne. destruct (Hnames Hne) as (Hverdicts & _).
    split; [exact Hverdicts|].
    destruct (sweepLoop_total (Z.to_nat MaxTTL) 1
                (print (LineTracing addr MaxTTL) w) Hne) as [e He].
    destruct (sweepLoop' (Z.to_nat MaxTTL) 1 (print (LineTracing addr MaxTTL) w))
      as [r w']. cbn [fst] in He. subst r.
    exists e. cbn [machineOfLoop fst]. split; [reflexivity|].
    split; [reflexivity|]. destruct e; [left|right]; reflexivity.
Qed.

(** The trace when the address resolves and every exchange fails. *)
Lemma tracert_errors addr w :
  ResolveIPAddr "ip4" addr = (destination, None) ->
  (forall j, 1 <= j <= MaxTTL -> hopError' j <> None) ->
  fst (tracert' addr w) = Ok (Some CondFalse) /\
  stdout (snd (tracert' addr w)) =
    stdout w ++ [LineTracing addr MaxTTL]
             ++ map LineError (upto (Z.to_nat MaxTTL) 1) ++ [LineEnded] /\
  exists ops,
    calls (snd (tracert' addr w)) = calls w ++ ops /\
    countOps isListen ops = MaxTTL.
Proof.
  intros Hres Hall. unfold tracert. rewrite Hres.
  destruct (sweepLoop_errors (Z.to_nat MaxTTL) 1 (print (LineTracing addr MaxTTL) w))
    as (Hfst & Hout & ops & Hc & Hl).
  { intros j Hj. apply Hall. change (Z.of_nat (Z.to_nat MaxTTL)) with MaxTTL in Hj. lia. }
  destruct (sweepLoop' (Z.to_nat MaxTTL) 1 (print (LineTracing addr MaxTTL) w))
    as [r w']. cbn [fst snd] in *. subst r.
  cbn [fst snd print stdout calls]. split; [reflexivity|]. split.
  - rewrite Hout. cbn [print stdout]. rewrite <- !app_assoc. reflexivity.
  - exists ops. split; [exact Hc|]. rewrite Hl. reflexivity.
Qed.

(** C6. An exchange that fails, whatever its error, makes [ping] print the
    error line of its hop and answer false, and the sweep goes on with the
    next hop limit.  When the address resolves and the exchange of every
    hop limit fails, in particular when every attempt of every hop times
    out, the trace prints the MaxTTL error lines of the hop limits
    1..MaxTTL in order between its first and last line, opens exactly
    MaxTTL sockets, and leaves its loop with the condition false: the
    state Exhausted. *)
Theorem C6_errors_are_scoped_to_their_hop :
  (forall ttl w e,
      errorOf (fst (exchange ttl w)) = Some e ->
      ping' ttl w = (Ok false, print (LineError ttl) (snd (exchange ttl w))) /\
      stdout (snd (ping' ttl w)) = stdout w ++ [LineError ttl]) /\
  (forall n i w e,
      errorOf (fst (exchange i w)) = Some e ->
      sweepLoop' (S n) i w
      = sweepLoop' n (i + 1) (print (LineError i) (snd (exchange i w)))) /\
  (forall addr w,
      ResolveIPAddr "ip4" addr = (destination, None) ->
      (forall j, 1 <= j <= MaxTTL -> hopError' j <> None) ->
      fst (tracert' addr w) = Ok (Some CondFalse) /\
      stateOfExit CondFalse = Exhausted /\
      stdout (snd (tracert' addr w)) =
        stdout w ++ [LineTracing addr MaxTTL]
                 ++ map LineError (upto (Z.to_nat MaxTTL) 1) ++ [LineEnded] /\
      exists ops,
        calls (snd (tracert' addr w)) = calls w ++ ops /\
        countOps isListen ops = MaxTTL) /\
  (forall addr w,
      ResolveIPAddr "ip4" addr = (destination, None) ->
      everyAttemptTimesOut net probe ->
      fst (tracert' addr w) = Ok (Some CondFalse) /\
      stateOfExit CondFalse = Exhausted /\
      stdout (snd (tracert' addr w)) =
        stdout w ++ [LineTracing addr MaxTTL]
                 ++ map LineError (upto (Z.to_nat MaxTTL) 1) ++ [LineEnded] /\
      exists ops,
        calls (snd (tracert' addr w)) = calls w ++ ops /\
        countOps isListen ops = MaxTTL).
Proof.
  assert (Hgen : forall addr w,
      ResolveIPAddr "ip4" addr = (destination, None) ->
      (forall j, 1 <= j <= MaxTTL -> hopError' j <> None) ->
      fst (tracert' addr w) = Ok (Some CondFalse) /\
      stateOfExit CondFalse = Exhausted /\
      stdout (snd (tracert' addr w)) =
        stdout w ++ [LineTracing addr MaxTTL]
                 ++ map LineError (upto (Z.to_nat MaxTTL) 1) ++ [LineEnded] /\
      exists ops,
        calls (snd (tracert' addr w)) = calls w ++ ops /\
        countOps isListen ops = MaxTTL).
  { intros addr w Hres Hall.
    destruct (tracert_errors addr w Hres Hall) as (H1 & H2 & H3).
    repeat split; assumption. }
  split; [|split; [|split]].
  - intros ttl w e He. rewrite (ping_error ttl w e He). split; [reflexivity|].
    destruct (exchange_calls ttl w) as (rest & _ & _ & _ & Ho).
    cbn [snd print stdout]. now rewrite Ho.
  - intros n i w e He. cbn [sweepLoop]. now rewrite (ping_error i w e He).
  - exact Hgen.
  - intros addr w Hres Hto. apply Hgen; [exact Hres|].
    intros j _. now apply timeouts_hopError.
Qed.

End ControllerFacts.

Lemma netThreeHops_verdicts (j : Z) :
  1 <= j < 3 ->
  hopVerdict 4242 marshalPlain parseHeader twoHosts netThreeHops
    "10.0.0.3"%string j = Ok false.
Proof.
  intros Hj. assert (Hc : j = 1 \/ j = 2) by lia.
  destruct Hc as [-> | ->]; reflexivity.
Qed.

Lemma twoHosts_namesNonEmpty : namesNonEmpty twoHosts.
Proof.
  intros addr name. unfold twoHosts.
  destruct (String.eqb addr "10.0.0.1");
    [|destruct (String.eqb addr "10.0.0.2")]; cbn;
    try (intros [<-|[]]; discriminate); intros [].
Qed.

Lemma C4_witness :
  (fst (tracert 4242 marshalPlain parseHeader twoHosts resolveLiteral
          netThreeHops "10.0.0.3"%string world0) = Ok (Some Break) /\
   exists ops,
     calls (snd (tracert 4242 marshalPlain parseHeader twoHosts resolveLiteral
                   netThreeHops "10.0.0.3"%string world0))
     = calls world0 ++ ops /\
     countOps isListen ops = 3 /\
     (forall h, In h (hopLimitsSet ops) -> 1 <= h <= 3)) /\
  exists e,
    fst (tracert 4242 marshalPlain parseHeader twoHosts resolveLiteral
           netThreeHops "10.0.0.3"%string world0) = Ok (Some e) /\
    fst (machineRun 4242 marshalPlain parseHeader twoHosts netThreeHops
           "10.0.0.3"%string (Z.to_nat MaxTTL) (Sweeping 1)
           (print (LineTracing "10.0.0.3" MaxTTL) world0))
    = Ok (stateOfExit e) /\
    (stateOfExit e = Reached \/ stateOfExit e = Exhausted).
Proof.
  pose proof (C4_tracert_is_the_state_machine 4242 marshalPlain parseHeader
                twoHosts netThreeHops "10.0.0.3"%string resolveLiteral
                "10.0.0.3"%string world0 eq_refl) as H.
  destruct H as (_ & _ & _ & _ & Hreach & _ & Hnames).
  split.
  - apply (Hreach 3).
    + unfold MaxTTL. lia.
    + exact netThreeHops_verdicts.
    + reflexivity.
  - exact (proj2 (Hnames twoHosts_namesNonEmpty)).
Defined.

Lemma netSilent_times_out :
  everyAttemptTimesOut netSilent (probeBytes 4242 marshalPlain).
Proof.
  intros h i. repeat split. exists "i/o timeout"%string. reflexivity.
Qed.

Lemma C6_witness :
  fst (tracert 4242 marshalPlain parseHeader noNames resolveLiteral netSilent
         "10.0.0.3"%string world0) = Ok (Some CondFalse) /\
  stateOfExit CondFalse = Exhausted /\
  stdout (snd (tracert 4242 marshalPlain parseHeader noNames resolveLiteral
                 netSilent "10.0.0.3"%string world0)) =
    stdout world0 ++ [LineTracing "10.0.0.3" MaxTTL]
                  ++ map LineError (upto (Z.to_nat MaxTTL) 1) ++ [LineEnded] /\
  exists ops,
    calls (snd (tracert 4242 marshalPlain parseHeader noNames resolveLiteral
                  netSilent "10.0.0.3"%string world0)) = calls world0 ++ ops /\
    countOps isListen ops = MaxTTL.
Proof.
  refine (proj2 (proj2 (proj2
            (C6_errors_are_scoped_to_their_hop 4242 marshalPlain parseHeader
               noNames netSilent "10.0.0.3"%string resolveLiteral)))
            "10.0.0.3"%string world0 _ _).
  - reflexivity.
  - exact netSilent_times_out.
Defined.

(** * Further properties *)

(** ** Packet Builder, any size *)

Lemma echoData_nonpos (size : Z) : size <= 0 -> echoData size = Ok [].
Proof.
  intros Hs. unfold echoData. change (len dataChunk) with 4.
  assert (Hq : Z.to_nat (Z.quot size 4) = 0%nat).
  { destruct size as [|p|p]; [reflexivity|lia|].
    change (Z.neg p) with (- Z.pos p). rewrite Z.quot_opp_l by lia.
    pose proof (Z.quot_pos (Z.pos p) 4 ltac:(lia) ltac:(lia)). lia. }
  rewrite Hq. cbn [writeChunks]. change (len (@nil byte)) with 0.
  replace (0 <? size - 0) with false by (symmetry; apply Z.ltb_ge; lia).
  reflexivity.
Qed.

Lemma echoData_len (size : Z) :
  0 <= size -> exists data, echoData size = Ok data /\ len data = size.
Proof.
  intros Hs. eexists. split; [apply echoData_eq; exact Hs|].
  pose proof (Z.mod_pos_bound size 4 ltac:(lia)) as Hb.
  assert (Hq : 0 <= size / 4) by (apply Z.div_pos; lia).
  unfold len. rewrite length_app, length_concat_repeat_chunk, length_firstn.
  change (List.length dataChunk) with 4%nat.
  rewrite (Z.div_mod size 4) at 3 by lia. lia.
Qed.

(** X1. [buildEchoRequest] returns for every size, never panicking on its
    slice: the payload has max(0, size) bytes (none for a size that is not
    positive), the message has the given type, code 0, sequence number 1
    and an identifier within 16 bits, and the error handed back is the
    marshaller's. *)
Theorem X1_builder_returns_for_every_size
    (pid : Z) (Marshal : Message -> list byte * option string) (t size : Z) :
  exists data,
    echoData size = Ok data /\
    len data = Z.max 0 size /\
    (size <= 0 -> data = []) /\
    0 <= Z.land pid 65535 < 65536 /\
    buildEchoRequest pid Marshal t size =
      Ok (fst (Marshal {| Type_ := t; Code := 0;
                          Body := Some {| ID := Z.land pid 65535; Seq := 1;
                                          Data := data |} |}),
          option_map LibError
            (snd (Marshal {| Type_ := t; Code := 0;
                             Body := Some {| ID := Z.land pid 65535; Seq := 1;
                                             Data := data |} |}))).
Proof.
  assert (Hid : 0 <= Z.land pid 65535 < 65536).
  { change 65535 with (Z.ones 16). rewrite Z.land_ones by lia.
    apply Z.mod_pos_bound. reflexivity. }
  destruct (Z_le_gt_dec size 0) as [Hs|Hs].
  - exists []. rewrite (echoData_nonpos size Hs).
    split; [reflexivity|]. split; [change (len (@nil byte)) with 0; lia|].
    split; [reflexivity|]. split; [exact Hid|].
    unfold buildEchoRequest. rewrite (echoData_nonpos size Hs). cbn [bindGo].
    destruct (Marshal _); reflexivity.
  - destruct (echoData_len size ltac:(lia)) as (data & He & Hl).
    exists data. split; [exact He|]. split; [lia|]. split; [lia|].
    split; [exact Hid|].
    unfold buildEchoRequest. rewrite He. cbn [bindGo].
    destruct (Marshal _); reflexivity.
Qed.

Lemma X1_witness :
  exists data, echoData (-3) = Ok data /\ len data = Z.max 0 (-3) /\ data = [].
Proof.
  destruct (X1_builder_returns_for_every_size 4242 marshalPlain ICMPTypeEcho (-3))
    as (data & He & Hl & Hn & _).
  exists data. split; [exact He|]. split; [exact Hl|]. apply Hn. lia.
Defined.

(** ** Probe Transport: setting up and releasing the socket *)

Lemma wellBracketed_attemptOps (ops rest : list SockOp) :
  forallb isAttemptOp ops = true ->
  wellBracketed true (ops ++ rest) = wellBracketed true rest.
Proof.
  induction ops as [|op ops IH]; [reflexivity|].
  cbn [forallb]. intros H. apply andb_true_iff in H as [H1 H2].
  destruct op; try discriminate; cbn [app wellBracketed andb]; apply IH; exact H2.
Qed.

Lemma wellBracketed_app (opened : bool) (ops1 ops2 : list SockOp) :
  wellBracketed opened ops1 = true ->
  wellBracketed opened (ops1 ++ ops2) = wellBracketed false ops2.
Proof.
  revert opened; induction ops1 as [|op ops1 IH]; intros opened H.
  - cbn in H. destruct opened; [discriminate|reflexivity].
  - destruct op, opened; cbn [app wellBracketed negb andb] in *;
      try discriminate; apply IH; exact H.
Qed.

Section ExchangeSetup.

Variable Getpid : Z.
Variable Marshal : Message -> list byte * option string.
Variable ParseMessage : Z -> list byte -> string + Message.
Variable LookupAddr : string -> list string * option string.
Variable net : Z -> HopEnv.
Variable destination : Addr.

Local Abbreviation socketExchange' := (socketExchange ParseMessage net destination).
Local Abbreviation ping' :=
  (ping Getpid Marshal ParseMessage LookupAddr net destination).
Local Abbreviation probe := (probeBytes Getpid Marshal).
Local Abbreviation sweepLoop' :=
  (fun n => sweepLoop Getpid Marshal ParseMessage LookupAddr net n destination).

(** X2. When the socket cannot be opened the exchange fails with that
    error and empty lists, and [ListenPacket] is its only call; when the
    deadline cannot be set it fails with that error, and the socket is
    closed without a hop limit being set or anything being sent.  In both
    cases [ping] prints the error line of the hop and answers false. *)
Theorem X2_setup_failure_fails_the_hop (b : list byte) (ttl attempts : Z) (w : World) :
  (forall e, listen_res (net ttl) = Some e ->
     socketExchange' b ttl attempts w
     = (([], [], None, Some (LibError e)), call ListenPacket w)) /\
  (forall e, listen_res (net ttl) = None -> deadline_res (net ttl) = Some e ->
     fst (socketExchange' b ttl attempts w) = ([0], [], None, Some (LibError e)) /\
     calls (snd (socketExchange' b ttl attempts w))
     = calls w ++ [ListenPacket; SetReadDeadline (now w + MaxWaitSec * Second);
                   Close]) /\
  (setupOk net ttl = false ->
     fst (ping' ttl w) = Ok false /\
     stdout (snd (ping' ttl w)) = stdout w ++ [LineError ttl] /\
     exists ops,
       calls (snd (ping' ttl w)) = calls w ++ ops /\
       countOps isSend ops = 0 /\ hopLimitsSet ops = []).
Proof.
  split; [|split].
  - intros e He. unfold socketExchange. rewrite He. reflexivity.
  - intros e Hl He. unfold socketExchange. rewrite Hl, He. cbn.
    rewrite <- !app_assoc. split; reflexivity.
  - intros Hs. unfold setupOk in Hs.
    assert (Hex : exists e ops,
              errorOf (fst (socketExchange' probe ttl AttemptsCount w)) = Some e /\
              calls (snd (socketExchange' probe ttl AttemptsCount w)) = calls w ++ ops /\
              stdout (snd (socketExchange' probe ttl AttemptsCount w)) = stdout w /\
              countOps isSend ops = 0 /\ hopLimitsSet ops = []).
    { unfold socketExchange.
      destruct (listen_res (net ttl)) as [e|].
      { exists (LibError e), [ListenPacket]. repeat split. }
      destruct (deadline_res (net ttl)) as [e|]; [|discriminate].
      exists (LibError e),
        [ListenPacket; SetReadDeadline (now w + MaxWaitSec * Second); Close].
      cbn. rewrite <- !app_assoc. repeat split. }
    destruct Hex as (e & ops & He & Hc & Ho & Hn & Hh).
    rewrite (ping_error Getpid Marshal ParseMessage LookupAddr net destination
               ttl w e He).
    cbn [fst snd print stdout calls]. rewrite Ho.
    split; [reflexivity|]. split; [reflexivity|].
    exists ops. repeat split; assumption.
Qed.

(** The calls of one exchange form one bracket. *)
Lemma exchange_bracket (b : list byte) (ttl attempts : Z) (w : World) :
  listen_res (net ttl) = None ->
  exists mid,
    calls (snd (socketExchange' b ttl attempts w))
    = calls w ++ [ListenPacket] ++ mid ++ [Close] /\
    countOps isListen mid = 0 /\
    countOps isClose mid = 0 /\
    wellBracketed false ([ListenPacket] ++ mid ++ [Close]) = true.
Proof.
  intros Hl.
  destruct (socketExchange_world ParseMessage net destination b ttl attempts w)
    as (ops & Ha & _ & Hc & _).
  rewrite Hl in Hc.
  assert (HzL : countOps isListen ops = 0).
  { apply attemptOps_count_zero; [|exact Ha].
    intros op; destruct op; cbn; congruence. }
  assert (HzC : countOps isClose ops = 0).
  { apply attemptOps_count_zero; [|exact Ha].
    intros op; destruct op; cbn; congruence. }
  destruct (deadline_res (net ttl)) as [e|].
  - exists [SetReadDeadline (now w + MaxWaitSec * Second)].
    rewrite Hc. repeat split.
  - exists ([SetReadDeadline (now w + MaxWaitSec * Second); SetTTL ttl] ++ ops).
    rewrite Hc. split; [reflexivity|].
    rewrite !countOps_app, HzL, HzC. split; [reflexivity|]. split; [reflexivity|].
    cbn [app wellBracketed negb andb].
    rewrite (wellBracketed_attemptOps ops [Close] Ha). reflexivity.
Qed.

(** X3. An exchange that opens its socket closes it on every way out
    (success, attempt error, deadline error): its calls are [ListenPacket]
    first, [Close] last, and neither of them in between. *)
Theorem X3_socket_is_closed_on_every_exit (b : list byte) (ttl attempts : Z) (w : World) :
  listen_res (net ttl) = None ->
  exists mid,
    calls (snd (socketExchange' b ttl attempts w))
    = calls w ++ [ListenPacket] ++ mid ++ [Close] /\
    countOps isListen mid = 0 /\
    countOps isClose mid = 0.
Proof.
  intros Hl. destruct (exchange_bracket b ttl attempts w Hl) as (mid & H1 & H2 & H3 & _).
  exists mid. repeat split; assumption.
Qed.

Lemma ping_bracket (ttl : Z) (w : World) :
  listen_res (net ttl) = None ->
  exists ops,
    calls (snd (ping' ttl w)) = calls w ++ ops /\
    wellBracketed false ops = true.
Proof.
  intros Hl.
  destruct (exchange_bracket probe ttl AttemptsCount w Hl) as (mid & Hc & _ & _ & Hb).
  exists ([ListenPacket] ++ mid ++ [Close]). split; [|exact Hb].
  rewrite (ping_eq Getpid Marshal ParseMessage LookupAddr net destination).
  destruct (socketExchange' probe ttl AttemptsCount w) as [[[[ds ps] ty] err] w'].
  cbn [snd] in Hc.
  destruct err; [exact Hc|]. destruct ty as [ty|]; [|exact Hc].
  destruct (ty =? ICMPTypeEchoReply).
  { destruct (createPeersString LookupAddr ps); exact Hc. }
  destruct (ty =? ICMPTypeTimeExceeded); [|exact Hc].
  destruct (createPeersString LookupAddr ps); exact Hc.
Qed.

(** X4. When every socket of the sweep opens, the calls of the whole sweep
    are well bracketed: a socket is opened only when none is open, every
    deadline, hop limit, send and receive is made on the open socket, and
    every socket is closed, also when the sweep stops early or panics. *)
Theorem X4_sweep_never_holds_two_sockets (n : nat) (i : Z) (w : World) :
  (forall h, i <= h < i + Z.of_nat n -> listen_res (net h) = None) ->
  exists ops,
    calls (snd (sweepLoop' n i w)) = calls w ++ ops /\
    wellBracketed false ops = true.
Proof.
  revert i w; induction n as [|n IH]; intros i w Hall.
  - exists []. cbn. now rewrite app_nil_r.
  - cbn [sweepLoop].
    destruct (ping_bracket i w (Hall i ltac:(lia))) as (ops1 & Hc1 & Hb1).
    destruct (ping' i w) as [[[|]|p] w']; cbn [snd] in Hc1 |- *.
    + exists ops1. split; assumption.
    + destruct (IH (i + 1) w') as (ops2 & Hc2 & Hb2);
        [intros h Hh; apply Hall; lia|].
      exists (ops1 ++ ops2). rewrite Hc2, Hc1, <- app_assoc.
      split; [reflexivity|].
      rewrite (wellBracketed_app false ops1 ops2 Hb1). exact Hb2.
    + exists ops1. split; assumption.
Qed.

End ExchangeSetup.

Lemma X2_witness :
  fst (ping 4242 marshalPlain parseHeader noNames netNoSocket
         "10.0.0.3"%string 7 world0) = Ok false /\
  stdout (snd (ping 4242 marshalPlain parseHeader noNames netNoSocket
                 "10.0.0.3"%string 7 world0)) = stdout world0 ++ [LineError 7] /\
  exists ops,
    calls (snd (ping 4242 marshalPlain parseHeader noNames netNoSocket
                  "10.0.0.3"%string 7 world0)) = calls world0 ++ ops /\
    countOps isSend ops = 0 /\ hopLimitsSet ops = [].
Proof.
  refine (proj2 (proj2 (X2_setup_failure_fails_the_hop 4242 marshalPlain
                          parseHeader noNames netNoSocket "10.0.0.3"%string
                          sampleProbe 7 AttemptsCount world0)) _).
  reflexivity.
Defined.

Lemma X3_witness :
  exists mid,
    calls (snd (socketExchange parseHeader netEchoThenTimeout "10.0.0.3"%string
                  sampleProbe 1 AttemptsCount world0))
    = calls world0 ++ [ListenPacket] ++ mid ++ [Close] /\
    countOps isListen mid = 0 /\
    countOps isClose mid = 0.
Proof.
  apply (X3_socket_is_closed_on_every_exit parseHeader netEchoThenTimeout
           "10.0.0.3"%string sampleProbe 1 AttemptsCount world0).
  reflexivity.
Defined.

Lemma X4_witness :
  exists ops,
    calls (snd (sweepLoop 4242 marshalPlain parseHeader twoHosts netThreeHops
                  (Z.to_nat MaxTTL) "10.0.0.3"%string 1 world0))
    = calls world0 ++ ops /\
    wellBracketed false ops = true.
Proof.
  apply (X4_sweep_never_holds_two_sockets 4242 marshalPlain parseHeader twoHosts
           netThreeHops "10.0.0.3"%string (Z.to_nat MaxTTL) 1 world0).
  intros h _. unfold netThreeHops.
  destruct (h =? 1); [reflexivity|]. destruct (h =? 2); reflexivity.
Defined.

(** ** Probe Transport: the calls of a complete exchange *)

Section ExchangeLog.

Variable ParseMessage : Z -> list byte -> string + Message.
Variable net : Z -> HopEnv.
Variable destination : Addr.
Variable b : list byte.

Local Abbreviation attemptBody' := (attemptBody ParseMessage).
Local Abbreviation attemptsLoop' := (attemptsLoop ParseMessage).
Local Abbreviation attemptError' := (attemptError ParseMessage).
Local Abbreviation exchange := (socketExchange ParseMessage net destination b).

Lemma attemptBody_clean_calls env i v w :
  attemptError' b (attempt env i) = None ->
  exists ops,
    calls (snd (attemptBody' env destination b i v w)) = calls w ++ ops /\
    map untimed ops = sendReceive 1 destination (len b).
Proof.
  unfold attemptBody, attemptError.
  destruct (write_res (attempt env i)) as [e|n]; [discriminate|].
  destruct (n =? len b); [|discriminate]. cbn [negb].
  destruct (read_res (attempt env i)) as [e|[datagram from]]; [discriminate|].
  destruct (ParseMessage ProtocolIPv4ICMP (firstn 1500 datagram)) as [e|m];
    [discriminate|].
  intros _.
  exists [WriteTo (now w) destination (len b);
          ReadFrom (now (elapse (write_time (attempt env i))
                           (call (WriteTo (now w) destination (len b)) w)))].
  unfold elapse, call. cbn [now calls stdout snd].
  rewrite <- app_assoc. split; reflexivity.
Qed.

Lemma attemptsLoop_clean_calls env n i v w :
  (forall j, i <= j < i + Z.of_nat n -> attemptError' b (attempt env j) = None) ->
  exists ops,
    calls (snd (attemptsLoop' n env destination b i v w)) = calls w ++ ops /\
    map untimed ops = sendReceive n destination (len b).
Proof.
  revert i v w; induction n as [|n IH]; intros i v w Hclean.
  - exists []. cbn. rewrite app_nil_r. split; reflexivity.
  - cbn [attemptsLoop].
    pose proof (attemptBody_fst ParseMessage env destination b i v w) as Hf.
    destruct (attemptBody_clean_calls env i v w (Hclean i ltac:(lia)))
      as (ops1 & Hc1 & Hu1).
    rewrite (Hclean i) in Hf by lia.
    destruct (attemptBody' env destination b i v w) as [[r|v'] w'];
      cbn [fst snd] in Hf, Hc1; [discriminate|].
    destruct (IH (i + 1) v' w') as (ops2 & Hc2 & Hu2);
      [intros j Hj; apply Hclean; lia|].
    exists (ops1 ++ ops2). rewrite Hc2, Hc1, <- app_assoc, map_app, Hu1, Hu2.
    split; reflexivity.
Qed.

(** X5. An exchange whose socket is set up and whose attempts all complete
    makes exactly these calls, in this order: open, set the deadline, set
    the hop limit, then for each of the attempts one send of the whole
    probe to the destination followed by one receive, and close.  (The
    clock readings of the calls are left aside.) *)
Theorem X5_calls_of_a_complete_exchange (ttl attempts : Z) (w : World) :
  listen_res (net ttl) = None ->
  deadline_res (net ttl) = None ->
  (forall j, 0 <= j < attempts ->
             attemptError' b (attempt (net ttl) j) = None) ->
  exists ops,
    calls (snd (exchange ttl attempts w)) = calls w ++ ops /\
    map untimed ops
    = [ListenPacket; SetReadDeadline 0; SetTTL ttl]
      ++ sendReceive (Z.to_nat attempts) destination (len b)
      ++ [Close].
Proof.
  intros Hl Hd Hclean.
  unfold socketExchange. rewrite Hl, Hd.
  match goal with
  | |- context [attemptsLoop' ?n ?env ?d ?b' ?i ?v ?w'] =>
    destruct (attemptsLoop_clean_calls env n i v w') as (ops & Hc & Hu);
      [intros j Hj; apply Hclean; lia|];
    destruct (attemptsLoop' n env d b' i v w') as [[r|v'] w'']
  end; cbn [fst snd calls call] in *;
    exists ([ListenPacket; SetReadDeadline (now w + MaxWaitSec * Second);
             SetTTL ttl] ++ ops ++ [Close]);
    rewrite Hc; cbn [calls call]; rewrite <- !app_assoc;
    (split; [reflexivity|]);
    rewrite !map_app, Hu; reflexivity.
Qed.

End ExchangeLog.

Lemma X5_witness :
  exists ops,
    calls (snd (socketExchange parseHeader netSlow "10.0.0.3"%string sampleProbe
                  1 AttemptsCount world0)) = calls world0 ++ ops /\
    map untimed ops
    = [ListenPacket; SetReadDeadline 0; SetTTL 1]
      ++ sendReceive (Z.to_nat AttemptsCount) "10.0.0.3"%string (len sampleProbe)
      ++ [Close].
Proof.
  apply (X5_calls_of_a_complete_exchange parseHeader netSlow
           "10.0.0.3"%string sampleProbe 1 AttemptsCount world0).
  - reflexivity.
  - reflexivity.
  - intros j _. reflexivity.
Defined.

(** ** Address Presenter: the format of the display *)

Lemma trailSep_joinSep (sep acc : string) (l : list string) :
  l <> [] ->
  (acc ++ trailSep sep l = (acc ++ joinSep sep l) ++ sep)%string.
Proof.
  revert acc; induction l as [|s l IH]; intros acc Hne; [contradiction|].
  destruct l as [|s' l].
  - cbn [trailSep joinSep]. rewrite <- !append_assoc.
    replace (sep ++ "")%string with sep; [reflexivity|].
    clear. induction sep as [|c sep IH]; cbn [append]; [|rewrite <- IH]; reflexivity.
  - change (trailSep sep (s :: s' :: l))
      with (s ++ sep ++ trailSep sep (s' :: l))%string.
    change (joinSep sep (s :: s' :: l))
      with (s ++ sep ++ joinSep sep (s' :: l))%string.
    rewrite !append_assoc.
    rewrite (IH ((acc ++ s) ++ sep)%string) by discriminate.
    reflexivity.
Qed.

Lemma identicalLoop_forallb (p : Addr) (l : list Addr) (acc : bool) :
  identicalLoop (p :: l) acc = acc && forallb (String.eqb p) l.
Proof.
  revert p acc; induction l as [|q l IH]; intros p acc.
  - cbn. now rewrite andb_true_r.
  - change (identicalLoop (p :: q :: l) acc)
      with (identicalLoop (q :: l) (if negb (String.eqb p q) then false else acc)).
    rewrite IH. cbn [forallb].
    destruct (String.eqb_spec p q) as [->|Hne]; cbn [negb andb].
    + reflexivity.
    + now rewrite andb_false_r.
Qed.

Lemma identicalLoop_allSame (peers : list Addr) :
  identicalLoop peers true = allSame peers.
Proof.
  destruct peers as [|p l]; [reflexivity|].
  rewrite identicalLoop_forallb. unfold allSame. cbn [hd forallb andb].
  now rewrite String.eqb_refl.
Qed.

Lemma strTo_dropLast (name : string) :
  name <> EmptyString -> strTo name (strlen name - 1) = Ok (dropLast name).
Proof.
  intros Hne. pose proof (strlen_pos name Hne) as Hp.
  unfold strTo, dropLast.
  replace ((0 <=? strlen name - 1) && (strlen name - 1 <=? strlen name)) with true
    by (symmetry; apply andb_true_iff; split; apply Z.leb_le; lia).
  unfold strlen. do 2 f_equal. lia.
Qed.

Section PresenterFormat.

Variable LookupAddr : string -> list string * option string.

Local Abbreviation ptrString' := (ptrString LookupAddr).
Local Abbreviation peersLoop' := (peersLoop LookupAddr).
Local Abbreviation createPeersString' := (createPeersString LookupAddr).

Lemma namesLoop_trail (ptr : list string) (ptrStr : string) :
  (forall name, In name ptr -> name <> EmptyString) ->
  namesLoop ptr ptrStr = Ok (ptrStr ++ trailSep "  " (map dropLast ptr))%string.
Proof.
  revert ptrStr; induction ptr as [|name ptr IH]; intros ptrStr Hne.
  - cbn. f_equal. clear. induction ptrStr as [|c s IH]; cbn [append];
      [|rewrite <- IH]; reflexivity.
  - cbn [namesLoop map trailSep].
    rewrite (strTo_dropLast name (Hne name (or_introl eq_refl))). cbn [bindGo].
    rewrite IH by (intros n Hn; apply Hne; now right).
    rewrite <- !append_assoc. reflexivity.
Qed.

Lemma namesLoop_empty_name (ptr : list string) (ptrStr : string) :
  In EmptyString ptr ->
  namesLoop ptr ptrStr = Panic (SliceBoundsOutOfRange (-1) 0).
Proof.
  revert ptrStr; induction ptr as [|name ptr IH]; intros ptrStr Hin; [destruct Hin|].
  cbn [namesLoop]. destruct name as [|c name].
  - reflexivity.
  - rewrite (strTo_dropLast (String c name)) by discriminate. cbn [bindGo].
    apply IH. destruct Hin as [Hin|Hin]; [discriminate|exact Hin].
Qed.

Lemma peersLoop_trail (peers rest : list Addr) (buffStr suffix : string) :
  ptrString' peers = Ok suffix ->
  peersLoop' peers rest buffStr
  = Ok (buffStr ++ trailSep "  " (map (fun p => p ++ suffix) rest))%string.
Proof.
  intros Hs. revert buffStr; induction rest as [|p rest IH]; intros buffStr.
  - cbn. f_equal. clear. induction buffStr as [|c s IH]; cbn [append];
      [|rewrite <- IH]; reflexivity.
  - cbn [peersLoop map trailSep]. rewrite Hs. cbn [bindGo]. rewrite IH.
    rewrite <- !append_assoc. reflexivity.
Qed.

Lemma peersLoop_panic (peers rest : list Addr) (buffStr : string) (p : panic) :
  rest <> [] -> ptrString' peers = Panic p ->
  peersLoop' peers rest buffStr = Panic p.
Proof.
  intros Hne Hp. destruct rest as [|q rest]; [contradiction|].
  cbn [peersLoop]. rewrite Hp. reflexivity.
Qed.

Lemma ptrString_hd (p : Addr) (l : list Addr) :
  ptrString' (p :: l) = ptrString' [p].
Proof. unfold ptrString. now rewrite !index_head. Qed.

(** The display, given the suffix. *)
Lemma createPeersString_format (peers : list Addr) :
  peers <> [] ->
  createPeersString' peers =
  (suffix <- ptrString' peers ;;
   Ok ("[" ++ joinSep "  " (map (fun p => p ++ suffix) (shown peers)) ++ "]")%string).
Proof.
  intros Hne. unfold createPeersString, shown.
  rewrite identicalLoop_allSame.
  assert (Hloop : forall ps, ps <> [] -> ptrString' ps = ptrString' peers ->
            (buffStr <- peersLoop' ps ps "[" ;;
             buffStr <- strTo buffStr (strlen buffStr - 2) ;;
             Ok (buffStr ++ "]")%string)
            = (suffix <- ptrString' peers ;;
               Ok ("[" ++ joinSep "  " (map (fun p => p ++ suffix) ps) ++ "]")%string)).
  { intros ps Hps Heq.
    destruct (ptrString' peers) as [suffix|p] eqn:Hp.
    - rewrite (peersLoop_trail ps ps "[" suffix Heq). cbn [bindGo].
      rewrite trailSep_joinSep
        by (destruct ps; [contradiction|discriminate]).
      change 2 with (strlen "  ") at 1. rewrite strTo_append. cbn [bindGo].
      rewrite <- !append_assoc. reflexivity.
    - rewrite (peersLoop_panic ps ps "[" p Hps Heq). reflexivity. }
  destruct peers as [|p l]; [contradiction|].
  destruct (allSame (p :: l)).
  - rewrite index_head. cbn [bindGo hd]. apply Hloop; [discriminate|].
    symmetry. apply ptrString_hd.
  - cbn [bindGo]. apply Hloop; [discriminate|reflexivity].
Qed.

(** X6. For a non-empty sequence the display is: an opening bracket, the
    displayed addresses in their order, each followed by the same suffix
    (the names found for the first address), two spaces between them, and
    a closing bracket.  The displayed addresses are the first one alone
    when all are textually identical, and otherwise all of them,
    repetitions included. *)
Theorem X6_display_format (peers : list Addr) :
  peers <> [] ->
  createPeersString' peers =
  (suffix <- ptrString' peers ;;
   Ok ("[" ++ joinSep "  " (map (fun p => p ++ suffix) (shown peers)) ++ "]")%string).
Proof.
  intros Hne. destruct peers as [|p l]; [contradiction|].
  apply createPeersString_format. discriminate.
Qed.

(** X7. The suffix is empty when the resolver has no name for the first
    address (also when it fails); otherwise, all names being non-empty, it
    is a space and, in parentheses, the names without their last byte, two
    spaces between them. *)
Theorem X7_names_suffix_format (p : Addr) (l : list Addr) :
  (fst (LookupAddr p) = [] -> ptrString' (p :: l) = Ok EmptyString) /\
  (fst (LookupAddr p) <> [] ->
   (forall name, In name (fst (LookupAddr p)) -> name <> EmptyString) ->
   ptrString' (p :: l)
   = Ok (" (" ++ joinSep "  " (map dropLast (fst (LookupAddr p))) ++ ")")%string).
Proof.
  unfold ptrString. rewrite index_head. cbn [bindGo]. split.
  - intros ->. reflexivity.
  - intros Hne Hnames.
    replace (0 <? len (fst (LookupAddr p))) with true.
    2:{ symmetry. apply Z.ltb_lt. unfold len.
        destruct (fst (LookupAddr p)); [contradiction|cbn [List.length]; lia]. }
    rewrite (namesLoop_trail _ _ Hnames). cbn [bindGo].
    rewrite trailSep_joinSep
      by (destruct (fst (LookupAddr p)); [contradiction|discriminate]).
    change 2 with (strlen "  ") at 1. rewrite strTo_append. cbn [bindGo].
    rewrite <- !append_assoc. reflexivity.
Qed.

End PresenterFormat.

(** X8. [createPeersString] panics in exactly two cases: on the empty
    sequence, with an index out of range, and when the resolver hands back
    an empty name for the first address, with slice bounds out of range
    (the name is cut to length -1).  In every other case it returns a
    string. *)
Theorem X8_presenter_panics LookupAddr (peers : list Addr) :
  (peers = [] ->
   createPeersString LookupAddr peers = Panic (IndexOutOfRange 0 0)) /\
  (peers <> [] ->
   In EmptyString (fst (LookupAddr (hd EmptyString peers))) ->
   createPeersString LookupAddr peers = Panic (SliceBoundsOutOfRange (-1) 0)) /\
  (peers <> [] ->
   ~ In EmptyString (fst (LookupAddr (hd EmptyString peers))) ->
   exists s, createPeersString LookupAddr peers = Ok s).
Proof.
  split; [|split].
  - intros ->. reflexivity.
  - intros Hne Hin. rewrite (createPeersString_format LookupAddr peers Hne).
    destruct peers as [|p l]; [contradiction|]. cbn [hd] in Hin.
    unfold ptrString. rewrite index_head. cbn [bindGo].
    replace (0 <? len (fst (LookupAddr p))) with true.
    2:{ symmetry. apply Z.ltb_lt. unfold len.
        destruct (fst (LookupAddr p)); [destruct Hin|cbn [List.length]; lia]. }
    rewrite (namesLoop_empty_name _ _ Hin). reflexivity.
  - intros Hne Hno. rewrite createPeersString_first.
    apply createPeersString_ok; [exact Hne|].
    intros addr name Hin ->. exact (Hno Hin).
Qed.

Lemma X6_witness :
  createPeersString twoHosts ["10.0.0.1"; "10.0.0.2"; "10.0.0.2"]%string =
  (suffix <- ptrString twoHosts ["10.0.0.1"; "10.0.0.2"; "10.0.0.2"]%string ;;
   Ok ("[" ++ joinSep "  "
                (map (fun p => p ++ suffix)
                     (shown ["10.0.0.1"; "10.0.0.2"; "10.0.0.2"]%string))
           ++ "]")%string).
Proof.
  apply (X6_display_format twoHosts ["10.0.0.1"; "10.0.0.2"; "10.0.0.2"]%string).
  discriminate.
Defined.

Lemma X7_witness :
  ptrString twoHosts ["10.0.0.2"; "10.0.0.1"]%string
  = Ok (" (" ++ joinSep "  " (map dropLast (fst (twoHosts "10.0.0.2"))) ++ ")")%string.
Proof.
  refine (proj2 (X7_names_suffix_format twoHosts "10.0.0.2"%string
                   ["10.0.0.1"%string]) _ _).
  - discriminate.
  - intros name [<-|[]]. discriminate.
Defined.

Lemma X8_witness :
  createPeersString emptyName ["10.0.0.1"; "10.0.0.1"; "10.0.0.1"]%string
  = Panic (SliceBoundsOutOfRange (-1) 0).
Proof.
  refine (proj1 (proj2 (X8_presenter_panics emptyName
                          ["10.0.0.1"; "10.0.0.1"; "10.0.0.1"]%string)) _ _).
  - discriminate.
  - cbn. right. left. reflexivity.
Defined.

(** ** Hop Prober and Trace Controller: what is printed *)

Section Report.

Variable Getpid : Z.
Variable Marshal : Message -> list byte * option string.
Variable ParseMessage : Z -> list byte -> string + Message.
Variable LookupAddr : string -> list string * option string.
Variable ResolveIPAddr : string -> string -> Addr * option string.
Variable net : Z -> HopEnv.
Variable destination : Addr.

Local Abbreviation probe := (probeBytes Getpid Marshal).
Local Abbreviation exchange :=
  (fun ttl w => socketExchange ParseMessage net destination probe ttl AttemptsCount w).
Local Abbreviation ping' :=
  (ping Getpid Marshal ParseMessage LookupAddr net destination).
Local Abbreviation sweepLoop' :=
  (fun n => sweepLoop Getpid Marshal ParseMessage LookupAddr net n destination).
Local Abbreviation tracert' :=
  (tracert Getpid Marshal ParseMessage LookupAddr ResolveIPAddr net).

(** The line of one hop. *)
Lemma ping_line (ttl : Z) (w : World) :
  match fst (ping' ttl w) with
  | Ok true =>
    exists s,
      createPeersString LookupAddr (peersOf (fst (exchange ttl w))) = Ok s /\
      classification (fst (exchange ttl w)) = Some ICMPTypeEchoReply /\
      stdout (snd (ping' ttl w))
      = stdout w ++ [LineReached ttl (durationsOf (fst (exchange ttl w))) s]
  | Ok false =>
    (errorOf (fst (exchange ttl w)) <> None /\
     stdout (snd (ping' ttl w)) = stdout w ++ [LineError ttl]) \/
    (exists s,
      createPeersString LookupAddr (peersOf (fst (exchange ttl w))) = Ok s /\
      classification (fst (exchange ttl w)) = Some ICMPTypeTimeExceeded /\
      stdout (snd (ping' ttl w))
      = stdout w ++ [LineTTLExc ttl (durationsOf (fst (exchange ttl w))) s])
  | Panic p =>
    createPeersString LookupAddr (peersOf (fst (exchange ttl w))) = Panic p /\
    errorOf (fst (exchange ttl w)) = None /\
    stdout (snd (ping' ttl w)) = stdout w
  end.
Proof.
  rewrite (ping_eq Getpid Marshal ParseMessage LookupAddr net destination).
  pose proof (socketExchange_inv ParseMessage net destination probe ttl
                AttemptsCount w) as Hinv.
  destruct (exchange_calls Getpid Marshal ParseMessage net destination ttl w)
    as (_ & _ & _ & _ & Ho).
  destruct (exchange ttl w) as [[[[ds ps] ty] err] w'].
  cbn [fst snd] in *. cbn [peersOf durationsOf classification errorOf fst snd].
  destruct err as [e|].
  { cbn [fst snd print stdout]. left. rewrite Ho. split; [discriminate|reflexivity]. }
  destruct Hinv as ([-> | ->] & _);
    [change (ICMPTypeEchoReply =? ICMPTypeEchoReply) with true
    |change (ICMPTypeTimeExceeded =? ICMPTypeEchoReply) with false;
     change (ICMPTypeTimeExceeded =? ICMPTypeTimeExceeded) with true];
    cbv iota;
    destruct (createPeersString LookupAddr ps) as [s|p]; cbn [fst snd print stdout];
    rewrite Ho.
  - exists s. repeat split.
  - repeat split.
  - right. exists s. repeat split.
  - repeat split.
Qed.

(** X9. [ping] prints exactly one line, about its own hop limit, unless
    the presenter panics, and then it prints none: a Reached line with the
    durations and the display when it answers true (the exchange was
    classified EchoReply); when it answers false, the error line if the
    exchange failed and else the TimeExceeded line.  It never returns
    without a line. *)
Theorem X9_ping_prints_the_line_of_its_hop (ttl : Z) (w : World) :
  match fst (ping' ttl w) with
  | Ok true =>
    exists s,
      createPeersString LookupAddr (peersOf (fst (exchange ttl w))) = Ok s /\
      classification (fst (exchange ttl w)) = Some ICMPTypeEchoReply /\
      stdout (snd (ping' ttl w))
      = stdout w ++ [LineReached ttl (durationsOf (fst (exchange ttl w))) s]
  | Ok false =>
    (errorOf (fst (exchange ttl w)) <> None /\
     stdout (snd (ping' ttl w)) = stdout w ++ [LineError ttl]) \/
    (exists s,
      createPeersString LookupAddr (peersOf (fst (exchange ttl w))) = Ok s /\
      classification (fst (exchange ttl w)) = Some ICMPTypeTimeExceeded /\
      stdout (snd (ping' ttl w))
      = stdout w ++ [LineTTLExc ttl (durationsOf (fst (exchange ttl w))) s])
  | Panic p =>
    createPeersString LookupAddr (peersOf (fst (exchange ttl w))) = Panic p /\
    errorOf (fst (exchange ttl w)) = None /\
    stdout (snd (ping' ttl w)) = stdout w
  end.
Proof.
  pose proof (ping_line ttl w) as H.
  destruct (fst (ping' ttl w)) as [[|]|p]; exact H.
Qed.

(** The line of a hop, by its kind. *)
Lemma ping_line_kind (ttl : Z) (w : World) :
  match fst (ping' ttl w) with
  | Ok r =>
    exists l, stdout (snd (ping' ttl w)) = stdout w ++ [l] /\
              lineHop l = Some ttl /\ isReachedLine l = r
  | Panic _ => stdout (snd (ping' ttl w)) = stdout w
  end.
Proof.
  pose proof (ping_line ttl w) as H.
  destruct (fst (ping' ttl w)) as [[|]|p].
  - destruct H as (s & _ & _ & Ho). eexists. split; [exact Ho|]. split; reflexivity.
  - destruct H as [[_ Ho]|(s & _ & _ & Ho)];
      (eexists; split; [exact Ho|]; split; reflexivity).
  - apply H.
Qed.

(** The hop lines of the sweep. *)
Lemma sweepLoop_lines (n : nat) (i : Z) (w : World) :
  exists lines,
    stdout (snd (sweepLoop' n i w)) = stdout w ++ lines /\
    map lineHop lines = map Some (upto (List.length lines) i) /\
    (List.length lines <= n)%nat /\
    match fst (sweepLoop' n i w) with
    | Ok Break =>
      exists front last,
        lines = front ++ [last] /\ isReachedLine last = true /\
        forallb (fun l => negb (isReachedLine l)) front = true
    | Ok CondFalse =>
      List.length lines = n /\
      forallb (fun l => negb (isReachedLine l)) lines = true
    | Panic _ => forallb (fun l => negb (isReachedLine l)) lines = true
    end.
Proof.
  revert i w; induction n as [|n IH]; intros i w.
  - exists []. cbn. rewrite app_nil_r. repeat split. lia.
  - cbn [sweepLoop].
    pose proof (ping_line_kind i w) as Hp.
    destruct (ping' i w) as [[[|]|p] w']; cbn [fst snd] in Hp |- *.
    + destruct Hp as (l & Ho & Hh & Hr).
      exists [l]. split; [exact Ho|]. cbn [map List.length upto]. rewrite Hh.
      split; [reflexivity|]. split; [lia|].
      exists [], l. repeat split. exact Hr.
    + destruct Hp as (l & Ho & Hh & Hr).
      destruct (IH (i + 1) w') as (lines & Ho2 & Hh2 & Hl2 & Hm).
      exists (l :: lines). rewrite Ho2, Ho, <- app_assoc.
      split; [reflexivity|].
      cbn [map List.length upto]. rewrite Hh, Hh2.
      split; [reflexivity|]. split; [lia|].
      destruct (fst (sweepLoop' n (i + 1) w')) as [[|]|p].
      * destruct Hm as (front & last & -> & Hlast & Hfront).
        exists (l :: front), last. split; [reflexivity|]. split; [exact Hlast|].
        cbn [forallb]. rewrite Hr, Hfront. reflexivity.
      * destruct Hm as [Hlen Hnone]. split; [lia|].
        cbn [forallb]. rewrite Hr, Hnone. reflexivity.
      * cbn [forallb]. rewrite Hr, Hm. reflexivity.
    + exists []. rewrite Hp, app_nil_r. repeat split. cbn. lia.
Qed.

(** X10. When the address resolves, [tracert] prints the header, then one
    line per hop limit probed, about the hop limits 1, 2, 3, ... in this
    order and at most MaxTTL of them, then the completion line (unless the
    presenter panics).  A Reached line can only be the last hop line: it is
    there exactly when the loop was left by [break]; when the loop ran out,
    there are MaxTTL hop lines and none is a Reached line. *)
Theorem X10_trace_output_shape (addr : string) (w : World) :
  ResolveIPAddr "ip4" addr = (destination, None) ->
  exists lines,
    stdout (snd (tracert' addr w))
    = stdout w ++ [LineTracing addr MaxTTL] ++ lines
               ++ match fst (tracert' addr w) with
                  | Ok _ => [LineEnded]
                  | Panic _ => []
                  end /\
    map lineHop lines = map Some (upto (List.length lines) 1) /\
    len lines <= MaxTTL /\
    match fst (tracert' addr w) with
    | Ok (Some Break) =>
      exists front last,
        lines = front ++ [last] /\ isReachedLine last = true /\
        forallb (fun l => negb (isReachedLine l)) front = true
    | Ok (Some CondFalse) =>
      len lines = MaxTTL /\
      forallb (fun l => negb (isReachedLine l)) lines = true
    | Ok None => False
    | Panic _ => forallb (fun l => negb (isReachedLine l)) lines = true
    end.
Proof.
  intros Hres. unfold tracert. rewrite Hres.
  destruct (sweepLoop_lines (Z.to_nat MaxTTL) 1 (print (LineTracing addr MaxTTL) w))
    as (lines & Ho & Hh & Hl & Hm).
  exists lines.
  destruct (sweepLoop' (Z.to_nat MaxTTL) 1 (print (LineTracing addr MaxTTL) w))
    as [[e|p] w']; cbn [fst snd print stdout] in *.
  - rewrite Ho, <- !app_assoc. split; [reflexivity|]. split; [exact Hh|].
    split; [unfold len, MaxTTL in *; lia|].
    destruct e; [exact Hm|]. destruct Hm as [Hlen Hnone].
    split; [unfold len; rewrite Hlen; reflexivity|exact Hnone].
  - rewrite Ho, <- !app_assoc, app_nil_r. split; [reflexivity|].
    split; [exact Hh|]. split; [unfold len, MaxTTL in *; lia|exact Hm].
Qed.

(** X11. [tracert] probes exactly when the address resolves.  When it does
    not, the header and the invalid-address line are printed, no socket is
    opened, and the completion line is not printed.  When it does, the
    first thing done after the header is to open a socket. *)
Theorem X11_tracert_probes_iff_the_address_resolves (addr : string) (w : World) :
  (forall d e,
      ResolveIPAddr "ip4" addr = (d, Some e) ->
      tracert' addr w
      = (Ok None,
         {| now := now w; calls := calls w;
            stdout := stdout w ++ [LineTracing addr MaxTTL;
                                   LineInvalidAddress addr] |})) /\
  (ResolveIPAddr "ip4" addr = (destination, None) ->
   fst (tracert' addr w) <> Ok None /\
   exists rest,
     calls (snd (tracert' addr w)) = calls w ++ ListenPacket :: rest).
Proof.
  split.
  - intros d e Hres. unfold tracert. rewrite Hres.
    unfold print. cbn [fst snd now calls stdout]. rewrite <- app_assoc.
    reflexivity.
  - intros Hres.
    rewrite (tracert_resolved Getpid Marshal ParseMessage LookupAddr net
               destination ResolveIPAddr addr w Hres).
    change (Z.to_nat MaxTTL) with (S (Z.to_nat (MaxTTL - 1))).
    cbn [sweepLoop].
    destruct (ping_calls Getpid Marshal ParseMessage LookupAddr net destination
                1 (print (LineTracing addr MaxTTL) w)) as (rest & Hc & _ & _).
    change (calls (print (LineTracing addr MaxTTL) w)) with (calls w) in Hc.
    destruct (ping' 1 (print (LineTracing addr MaxTTL) w)) as [[[|]|p] w'];
      cbn [snd] in Hc.
    + split; [discriminate|]. exists rest. exact Hc.
    + destruct (sweepLoop_calls Getpid Marshal ParseMessage LookupAddr net
                  destination (Z.to_nat (MaxTTL - 1)) (1 + 1) w')
        as (ops & Hc2 & _ & _).
      destruct (sweepLoop' (Z.to_nat (MaxTTL - 1)) (1 + 1) w') as [[e|p] w''];
        cbn [fst snd print calls] in *;
        (split; [discriminate|]); exists (rest ++ ops);
        rewrite Hc2, Hc, <- app_assoc; reflexivity.
    + split; [discriminate|]. exists rest. exact Hc.
Qed.

(** The hop limit set by one hop. *)
Lemma ping_hopLimit (ttl : Z) (w : World) :
  exists rest,
    calls (snd (ping' ttl w)) = calls w ++ ListenPacket :: rest /\
    countOps isListen rest = 0 /\
    hopLimitsSet rest = if setupOk net ttl then [ttl] else [].
Proof.
  destruct (ping_calls Getpid Marshal ParseMessage LookupAddr net destination ttl w)
    as (rest & Hc & Hl & _).
  destruct (socketExchange_world ParseMessage net destination probe ttl
              AttemptsCount w) as (ops & Ha & _ & Hc2 & _).
  assert (Heq : calls (snd (ping' ttl w)) = calls (snd (exchange ttl w))).
  { rewrite (ping_eq Getpid Marshal ParseMessage LookupAddr net destination).
    destruct (exchange ttl w) as [[[[ds ps] ty] err] w']. cbn [snd].
    destruct err; [reflexivity|]. destruct ty as [ty|]; [|reflexivity].
    destruct (ty =? ICMPTypeEchoReply).
    { destruct (createPeersString LookupAddr ps); reflexivity. }
    destruct (ty =? ICMPTypeTimeExceeded); [|reflexivity].
    destruct (createPeersString LookupAddr ps); reflexivity. }
  exists rest. split; [exact Hc|]. split; [exact Hl|].
  rewrite Heq, Hc2 in Hc. apply app_inv_head in Hc. injection Hc as <-.
  unfold setupOk.
  destruct (listen_res (net ttl)); [reflexivity|].
  destruct (deadline_res (net ttl)); [reflexivity|].
  cbn [hopLimitsSet]. rewrite hopLimitsSet_app, (attemptOps_no_hopLimit ops Ha).
  reflexivity.
Qed.

(** X12. The sweep sets hop limits in increasing order, each at most once:
    after k iterations (one socket opened in each) the hop limits set are
    those of i, i+1, ..., i+k-1 whose socket could be opened and given its
    deadline, in this order. *)
Theorem X12_hop_limits_are_set_in_order (n : nat) (i : Z) (w : World) :
  exists ops k,
    calls (snd (sweepLoop' n i w)) = calls w ++ ops /\
    (k <= n)%nat /\
    countOps isListen ops = Z.of_nat k /\
    hopLimitsSet ops = filter (setupOk net) (upto k i).
Proof.
  revert i w; induction n as [|n IH]; intros i w.
  - exists [], 0%nat. cbn. rewrite app_nil_r. repeat split. lia.
  - cbn [sweepLoop].
    destruct (ping_hopLimit i w) as (rest & Hc & Hl & Hh).
    assert (Hone : countOps isListen (ListenPacket :: rest) = 1).
    { change (ListenPacket :: rest) with ([ListenPacket] ++ rest).
      rewrite countOps_app, Hl. reflexivity. }
    assert (Hset : hopLimitsSet (ListenPacket :: rest)
                   = filter (setupOk net) (upto 1 i)).
    { cbn [hopLimitsSet upto filter]. rewrite Hh.
      destruct (setupOk net i); reflexivity. }
    destruct (ping' i w) as [[[|]|p] w']; cbn [snd] in Hc |- *.
    + exists (ListenPacket :: rest), 1%nat. repeat split; try assumption. lia.
    + destruct (IH (i + 1) w') as (ops & k & Hc2 & Hk & Hl2 & Hh2).
      exists ((ListenPacket :: rest) ++ ops), (S k).
      rewrite Hc2, Hc, <- app_assoc. split; [reflexivity|]. split; [lia|].
      rewrite countOps_app, Hone, Hl2, hopLimitsSet_app, Hset, Hh2.
      split; [lia|]. cbn [upto filter]. destruct (setupOk net i); reflexivity.
    + exists (ListenPacket :: rest), 1%nat. repeat split; try assumption. lia.
Qed.

End Report.

Lemma X10_witness :
  exists lines,
    stdout (snd (tracert 4242 marshalPlain parseHeader twoHosts resolveLiteral
                   netThreeHops "10.0.0.3"%string world0))
    = stdout world0 ++ [LineTracing "10.0.0.3" MaxTTL] ++ lines
        ++ match fst (tracert 4242 marshalPlain parseHeader twoHosts
                        resolveLiteral netThreeHops "10.0.0.3"%string world0) with
           | Ok _ => [LineEnded]
           | Panic _ => []
           end /\
    map lineHop lines = map Some (upto (List.length lines) 1) /\
    len lines <= MaxTTL /\
    match fst (tracert 4242 marshalPlain parseHeader twoHosts resolveLiteral
                 netThreeHops "10.0.0.3"%string world0) with
    | Ok (Some Break) =>
      exists front last,
        lines = front ++ [last] /\ isReachedLine last = true /\
        forallb (fun l => negb (isReachedLine l)) front = true
    | Ok (Some CondFalse) =>
      len lines = MaxTTL /\
      forallb (fun l => negb (isReachedLine l)) lines = true
    | Ok None => False
    | Panic _ => forallb (fun l => negb (isReachedLine l)) lines = true
    end.
Proof.
  apply (X10_trace_output_shape 4242 marshalPlain parseHeader twoHosts
           resolveLiteral netThreeHops "10.0.0.3"%string "10.0.0.3"%string world0).
  reflexivity.
Defined.

Lemma X11_witness :
  tracert 4242 marshalPlain parseHeader twoHosts resolveNothing netThreeHops
    "no.such.host"%string world0
  = (Ok None,
     {| now := now world0; calls := calls world0;
        stdout := stdout world0 ++ [LineTracing "no.such.host" MaxTTL;
                                    LineInvalidAddress "no.such.host"] |}).
Proof.
  refine (proj1 (X11_tracert_probes_iff_the_address_resolves 4242 marshalPlain
                   parseHeader twoHosts resolveNothing netThreeHops
                   "10.0.0.3"%string "no.such.host"%string world0)
            EmptyString "no such host"%string _).
  reflexivity.
Defined.

(** ** Probe Transport: sends, receives and failures *)

Section ExchangeEdges.

Variable ParseMessage : Z -> list byte -> string + Message.
Variable net : Z -> HopEnv.
Variable destination : Addr.
Variable b : list byte.

Local Abbreviation attemptBody' := (attemptBody ParseMessage).
Local Abbreviation attemptsLoop' := (attemptsLoop ParseMessage).
Local Abbreviation attemptError' := (attemptError ParseMessage).
Local Abbreviation exchange := (socketExchange ParseMessage net destination b).

Lemma attemptError_sendFails a :
  attemptError' b a = None -> sendFails b a = false.
Proof.
  unfold attemptError, sendFails.
  destruct (write_res a) as [e|n]; [discriminate|].
  destruct (n =? len b); [reflexivity|discriminate].
Qed.

(** The calls of one attempt, counted. *)
Lemma attemptBody_counts env i v w :
  exists ops,
    calls (snd (attemptBody' env destination b i v w)) = calls w ++ ops /\
    forallb (sendsTo destination (len b)) ops = true /\
    countOps isSend ops = 1 /\
    countOps isReceive ops = if sendFails b (attempt env i) then 0 else 1.
Proof.
  unfold attemptBody, sendFails.
  assert (Hto : sendsTo destination (len b) (WriteTo (now w) destination (len b))
                = true).
  { cbn. now rewrite String.eqb_refl, Z.eqb_refl. }
  destruct (write_res (attempt env i)) as [e|n].
  { exists [WriteTo (now w) destination (len b)]. cbn [snd elapse call calls forallb].
    rewrite Hto. repeat split. }
  destruct (n =? len b); cbn [negb].
  2:{ exists [WriteTo (now w) destination (len b)]. cbn [snd elapse call calls forallb].
      rewrite Hto. repeat split. }
  exists [WriteTo (now w) destination (len b);
          ReadFrom (now w + write_time (attempt env i))].
  cbn [forallb]. rewrite Hto.
  destruct (read_res (attempt env i)) as [e|[datagram from]];
    [|destruct (ParseMessage ProtocolIPv4ICMP (firstn 1500 datagram))];
    cbn [snd elapse call calls now]; rewrite <- app_assoc; repeat split.
Qed.

Lemma attemptsLoop_sends env n i v w :
  exists ops,
    calls (snd (attemptsLoop' n env destination b i v w)) = calls w ++ ops /\
    forallb (sendsTo destination (len b)) ops = true.
Proof.
  revert i v w; induction n as [|n IH]; intros i v w.
  - exists []. cbn. now rewrite app_nil_r.
  - cbn [attemptsLoop].
    destruct (attemptBody_counts env i v w) as (ops1 & Hc1 & Hs1 & _).
    destruct (attemptBody' env destination b i v w) as [[r|v'] w'];
      cbn [snd] in *.
    + exists ops1. split; assumption.
    + destruct (IH (i + 1) v' w') as (ops2 & Hc2 & Hs2).
      exists (ops1 ++ ops2). rewrite Hc2, Hc1, <- app_assoc, forallb_app, Hs1, Hs2.
      split; reflexivity.
Qed.

Lemma attemptsLoop_abort_counts env n i k e v w :
  i <= k < i + Z.of_nat n ->
  (forall j, i <= j < k -> attemptError' b (attempt env j) = None) ->
  attemptError' b (attempt env k) = Some e ->
  exists ops,
    calls (snd (attemptsLoop' n env destination b i v w)) = calls w ++ ops /\
    countOps isSend ops = k - i + 1 /\
    countOps isReceive ops
    = k - i + (if sendFails b (attempt env k) then 0 else 1).
Proof.
  revert i v w; induction n as [|n IH]; intros i v w Hk Hclean Herr; [lia|].
  cbn [attemptsLoop].
  pose proof (attemptBody_fst ParseMessage env destination b i v w) as Hb.
  destruct (attemptBody_counts env i v w) as (ops1 & Hc1 & _ & Hs1 & Hr1).
  destruct (Z.eq_dec i k) as [->|Hne].
  - rewrite Herr in Hb.
    destruct (attemptBody' env destination b k v w) as [[r|v'] w'];
      cbn [fst snd] in *; [|discriminate].
    exists ops1. split; [exact Hc1|]. split; [lia|]. rewrite Hr1. lia.
  - rewrite (Hclean i) in Hb by lia.
    rewrite (attemptError_sendFails _ (Hclean i ltac:(lia))) in Hr1.
    destruct (attemptBody' env destination b i v w) as [[r|v'] w'];
      cbn [fst snd] in *; [discriminate|].
    destruct (IH (i + 1) v' w') as (ops2 & Hc2 & Hs2 & Hr2);
      [lia|intros j Hj; apply Hclean; lia|exact Herr|].
    exists (ops1 ++ ops2). rewrite Hc2, Hc1, <- app_assoc.
    rewrite !countOps_app, Hs1, Hs2, Hr1, Hr2.
    split; [reflexivity|]. split; lia.
Qed.

(** X13. Whatever happens, every send of an exchange carries the whole
    probe (its length) to the destination it was given. *)
Theorem X13_every_send_is_the_probe_to_the_destination (ttl attempts : Z) (w : World) :
  exists ops,
    calls (snd (exchange ttl attempts w)) = calls w ++ ops /\
    forallb (sendsTo destination (len b)) ops = true.
Proof.
  unfold socketExchange.
  destruct (listen_res (net ttl)) as [e|].
  { exists [ListenPacket]. split; reflexivity. }
  destruct (deadline_res (net ttl)) as [e|].
  { eexists. cbn [snd call calls]. rewrite <- !app_assoc. split; reflexivity. }
  match goal with
  | |- context [attemptsLoop' ?n ?env ?d ?b' ?i ?v ?w'] =>
    destruct (attemptsLoop_sends env n i v w') as (ops & Hc & Hs);
    destruct (attemptsLoop' n env d b' i v w') as [[r|v'] w'']
  end; cbn [fst snd call calls] in *;
    exists ([ListenPacket; SetReadDeadline (now w + MaxWaitSec * Second); SetTTL ttl]
              ++ ops ++ [Close]);
    rewrite Hc; cbn [call calls]; rewrite <- !app_assoc;
    (split; [reflexivity|]);
    cbn [app forallb sendsTo andb]; rewrite forallb_app, Hs; reflexivity.
Qed.

(** X14. With an attempt count that is not positive and the socket set up,
    the exchange sends nothing and still succeeds: it hands back empty
    lists with the classification TimeExceeded, the value [t] starts
    with.  On that empty responder list the presenter panics. *)
Theorem X14_no_attempt_is_a_TimeExceeded_success
    (LookupAddr : string -> list string * option string)
    (ttl attempts : Z) (w : World) :
  attempts <= 0 ->
  listen_res (net ttl) = None ->
  deadline_res (net ttl) = None ->
  exchange ttl attempts w
  = (([], [], Some ICMPTypeTimeExceeded, None),
     {| now := now w;
        calls := calls w ++ [ListenPacket;
                             SetReadDeadline (now w + MaxWaitSec * Second);
                             SetTTL ttl; Close];
        stdout := stdout w |}) /\
  createPeersString LookupAddr (peersOf (fst (exchange ttl attempts w)))
  = Panic (IndexOutOfRange 0 0).
Proof.
  intros Ha Hl Hd.
  assert (Heq : exchange ttl attempts w
    = (([], [], Some ICMPTypeTimeExceeded, None),
       {| now := now w;
          calls := calls w ++ [ListenPacket;
                               SetReadDeadline (now w + MaxWaitSec * Second);
                               SetTTL ttl; Close];
          stdout := stdout w |})).
  { unfold socketExchange. rewrite Hl, Hd.
    replace (Z.to_nat attempts) with 0%nat by lia.
    cbn [attemptsLoop classify t durationsArray peersArray].
    change (ICMPTypeTimeExceeded =? ICMPTypeEchoReply) with false.
    change (ICMPTypeTimeExceeded =? ICMPTypeTimeExceeded) with true.
    cbv iota. unfold call. cbn [now calls stdout].
    rewrite <- !app_assoc. reflexivity. }
  split; [exact Heq|]. rewrite Heq. reflexivity.
Qed.

(** X15. In an exchange that fails at attempt k, a send that fails or is
    short is not followed by a receive: the attempts before k have each
    sent and received once, and attempt k has sent once and has received
    only if its send went through in full. *)
Theorem X15_no_receive_after_a_failed_send (ttl attempts : Z) (w : World) (k : Z) (e : error) :
  listen_res (net ttl) = None ->
  deadline_res (net ttl) = None ->
  0 <= k < attempts ->
  (forall j, 0 <= j < k -> attemptError' b (attempt (net ttl) j) = None) ->
  attemptError' b (attempt (net ttl) k) = Some e ->
  exists ops,
    calls (snd (exchange ttl attempts w))
    = calls w ++ [ListenPacket; SetReadDeadline (now w + MaxWaitSec * Second);
                  SetTTL ttl] ++ ops ++ [Close] /\
    countOps isSend ops = k + 1 /\
    countOps isReceive ops
    = k + (if sendFails b (attempt (net ttl) k) then 0 else 1) /\
    (sendFails b (attempt (net ttl) k) = true ->
     e = match write_res (attempt (net ttl) k) with
         | inl err => LibError err
         | inr n => GotWant n (len b)
         end).
Proof.
  intros Hl Hd Hk Hclean Herr. unfold socketExchange. rewrite Hl, Hd.
  match goal with
  | |- context [attemptsLoop' ?n ?env ?d ?b' ?i ?v ?w'] =>
    destruct (attemptsLoop_abort_counts env n i k e v w')
      as (ops & Hc & Hs & Hr); [lia|exact Hclean|exact Herr|];
    destruct (attemptsLoop' n env d b' i v w') as [[r|v'] w'']
  end; cbn [fst snd call calls] in *; exists ops;
    rewrite Hc; cbn [call calls]; rewrite <- !app_assoc;
    (split; [reflexivity|]); (split; [lia|]); (split; [lia|]);
    unfold sendFails, attemptError in *;
    destruct (write_res (attempt (net ttl) k)) as [err|n];
    try (intros _; congruence);
    destruct (n =? len b); cbn [negb]; try discriminate;
    intros _; congruence.
Qed.

(** X16. A failed exchange hands back nothing that was measured: no
    classification, no responder, and as durations the empty list (the
    socket did not open) or the single entry 0; the durations and
    responders of the attempts that had completed are dropped. *)
Theorem X16_failure_carries_no_measurement (ttl attempts : Z) (w : World) (e : error) :
  errorOf (fst (exchange ttl attempts w)) = Some e ->
  classification (fst (exchange ttl attempts w)) = None /\
  peersOf (fst (exchange ttl attempts w)) = [] /\
  (durationsOf (fst (exchange ttl attempts w)) = [] /\
   listen_res (net ttl) <> None
   \/ durationsOf (fst (exchange ttl attempts w)) = [0] /\
      listen_res (net ttl) = None).
Proof.
  unfold socketExchange.
  destruct (listen_res (net ttl)) as [e1|].
  { intros _. cbn. repeat split. left. split; [reflexivity|discriminate]. }
  destruct (deadline_res (net ttl)) as [e1|].
  { intros _. cbn. repeat split. right. split; reflexivity. }
  match goal with
  | |- context [attemptsLoop' ?n ?env ?d ?b' ?i ?v ?w'] =>
    pose proof (attemptsLoop_inv ParseMessage env d b' n i v w') as H;
    destruct (attemptsLoop' n env d b' i v w') as [[r|v'] w'']
  end; cbn [fst snd] in *.
  - destruct H as (e1 & -> & _). intros _. cbn. repeat split.
    right. split; reflexivity.
  - destruct H as (_ & _ & Ht). cbn [t] in Ht. unfold classify.
    destruct Ht as [Ht|Ht]; rewrite Ht; cbn; discriminate.
Qed.

End ExchangeEdges.

Lemma X14_witness :
  socketExchange parseHeader netThreeHops "10.0.0.3"%string sampleProbe 1 0 world0
  = (([], [], Some ICMPTypeTimeExceeded, None),
     {| now := now world0;
        calls := calls world0
                 ++ [ListenPacket;
                     SetReadDeadline (now world0 + MaxWaitSec * Second);
                     SetTTL 1; Close];
        stdout := stdout world0 |}) /\
  createPeersString twoHosts
    (peersOf (fst (socketExchange parseHeader netThreeHops "10.0.0.3"%string
                     sampleProbe 1 0 world0)))
  = Panic (IndexOutOfRange 0 0).
Proof.
  apply (X14_no_attempt_is_a_TimeExceeded_success parseHeader netThreeHops
           "10.0.0.3"%string sampleProbe twoHosts 1 0 world0).
  - lia.
  - reflexivity.
  - reflexivity.
Defined.

Lemma X15_witness :
  exists ops,
    calls (snd (socketExchange parseHeader netShortWrite "10.0.0.3"%string
                  sampleProbe 1 AttemptsCount world0))
    = calls world0 ++ [ListenPacket;
                       SetReadDeadline (now world0 + MaxWaitSec * Second);
                       SetTTL 1] ++ ops ++ [Close] /\
    countOps isSend ops = 2 + 1 /\
    countOps isReceive ops
    = 2 + (if sendFails sampleProbe (attempt (netShortWrite 1) 2) then 0 else 1) /\
    (sendFails sampleProbe (attempt (netShortWrite 1) 2) = true ->
     GotWant 12 60 = match write_res (attempt (netShortWrite 1) 2) with
                     | inl err => LibError err
                     | inr n => GotWant n (len sampleProbe)
                     end).
Proof.
  apply (X15_no_receive_after_a_failed_send parseHeader netShortWrite
           "10.0.0.3"%string sampleProbe 1 AttemptsCount world0 2 (GotWant 12 60)).
  - reflexivity.
  - reflexivity.
  - unfold AttemptsCount. lia.
  - intros j Hj. assert (Hc : j = 0 \/ j = 1) by lia.
    destruct Hc as [-> | ->]; reflexivity.
  - reflexivity.
Defined.

Lemma X16_witness :
  classification (fst (socketExchange parseHeader netEchoThenTimeout
                         "10.0.0.3"%string sampleProbe 1 AttemptsCount world0))
  = None /\
  peersOf (fst (socketExchange parseHeader netEchoThenTimeout
                  "10.0.0.3"%string sampleProbe 1 AttemptsCount world0)) = [] /\
  (durationsOf (fst (socketExchange parseHeader netEchoThenTimeout
                       "10.0.0.3"%string sampleProbe 1 AttemptsCount world0)) = [] /\
   listen_res (netEchoThenTimeout 1) <> None
   \/ durationsOf (fst (socketExchange parseHeader netEchoThenTimeout
                          "10.0.0.3"%string sampleProbe 1 AttemptsCount world0))
      = [0] /\
      listen_res (netEchoThenTimeout 1) = None).
Proof.
  apply (X16_failure_carries_no_measurement parseHeader netEchoThenTimeout
           "10.0.0.3"%string sampleProbe 1 AttemptsCount world0
           (LibError "i/o timeout")).
  reflexivity.
Defined.
